(** * Breakwater client-side outgoing gate

    A shallow embedding of [breakwater/client_interceptor.go]: the three
    channels of a [Breakwater] instance, the four channel helpers and the
    unary client interceptor, the latter as a labelled step function of one
    goroutine over the shared instance. *)

From Stdlib Require Import ZArith String Ascii List Bool Lia.
From stdpp Require Import base option list strings pretty gmap.

Local Open Scope string_scope.
Local Open Scope list_scope.
Local Open Scope Z_scope.

(** ** Machine integers *)

Module Int64.

Definition min_int : Z := - 2 ^ 63.
Definition max_int : Z := 2 ^ 63 - 1.

Definition in_range (z : Z) : Prop := min_int <= z <= max_int.

(** Two's-complement wrap-around of Go's [int64] arithmetic. *)
Definition wrap (z : Z) : Z := (z + 2 ^ 63) mod 2 ^ 64 - 2 ^ 63.

Definition add (a b : Z) : Z := wrap (a + b).
Definition sub (a b : Z) : Z := wrap (a - b).

End Int64.

(** ** The library calls the interceptor makes *)

Module Strconv.

(** [strconv.Itoa]. *)
Definition Itoa (z : Z) : string := pretty z.

Definition digit (c : ascii) : option Z :=
  let n := Z.of_N (N_of_ascii c) in
  if (48 <=? n) && (n <=? 57) then Some (n - 48) else None.

Inductive uresult :=
| UValue (n : Z)
| USyntax
| URange.

(** The digit loop of [strconv.ParseUint] at base 10 and 64 bits: a byte
    that is not a decimal digit is a syntax error, and the loop leaves at
    the first digit that overflows [uint64]. *)
Fixpoint parse_digits (s : string) (n : Z) : uresult :=
  match s with
  | EmptyString => UValue n
  | String c rest =>
      match digit c with
      | None => USyntax
      | Some d =>
          if (2 ^ 64 - 1) / 10 + 1 <=? n then URange
          else
            let n1 := n * 10 + d in
            if 2 ^ 64 - 1 <? n1 then URange else parse_digits rest n1
      end
  end.

Definition ParseUint (s : string) : uresult :=
  match s with
  | EmptyString => USyntax
  | _ => parse_digits s 0
  end.

(** The value [strconv.ParseInt(s, 10, 64)] returns; the interceptor drops
    the error: 0 on a syntax error, the nearest bound on a range error. *)
Definition ParseInt (s : string) : Z :=
  match s with
  | EmptyString => 0
  | String c rest =>
      let neg := Ascii.eqb c "-"%char in
      let digits := if Ascii.eqb c "+"%char || neg then rest else s in
      match ParseUint digits with
      | USyntax => 0
      | r =>
          let un := match r with UValue n => n | _ => 2 ^ 64 - 1 end in
          if negb neg && (2 ^ 63 <=? un) then 2 ^ 63 - 1
          else if neg && (2 ^ 63 <? un) then - 2 ^ 63
          else if neg then - un else un
      end
  end.

End Strconv.

(** ** Channels *)

(** A buffered Go channel: the queued values, oldest first, and the
    capacity it was made with. A value Go hands straight to a receiver
    that is already parked goes through the buffer here: the send, then
    the step of that receiver. *)
Record chan := Chan { buf : list Z; cap : nat }.

Module Channel.

Definition len (c : chan) : Z := Z.of_nat (length (buf c)).

Definition full (c : chan) : Prop := (cap c <= length (buf c))%nat.

(** [c <- v] when it can proceed; [None] when the sender would block
    (in a [select] with a [default], when the [default] is taken). *)
Definition send (c : chan) (v : Z) : option chan :=
  if (length (buf c) <? cap c)%nat
  then Some (Chan (buf c ++ [v]) (cap c))
  else None.

(** [<-c] when it can proceed; [None] when the receiver would block. *)
Definition recv (c : chan) : option (Z * chan) :=
  match buf c with
  | [] => None
  | v :: rest => Some (v, Chan rest (cap c))
  end.

End Channel.
(** ** The instance *)

(** The fields of [Breakwater] the client interceptor touches. [id] holds
    the text [b.id.String()] returns. *)
Record Breakwater := mkBreakwater {
  pendingOutgoing : chan;
  noCreditBlocker : chan;
  outgoingCredits : chan;
  clientExpiration : Z;
  id : string
}.

Definition with_pendingOutgoing (b : Breakwater) (c : chan) : Breakwater :=
  mkBreakwater c (noCreditBlocker b) (outgoingCredits b) (clientExpiration b) (id b).

Definition with_noCreditBlocker (b : Breakwater) (c : chan) : Breakwater :=
  mkBreakwater (pendingOutgoing b) c (outgoingCredits b) (clientExpiration b) (id b).

Definition with_outgoingCredits (b : Breakwater) (c : chan) : Breakwater :=
  mkBreakwater (pendingOutgoing b) (noCreditBlocker b) c (clientExpiration b) (id b).

(** The package-level switches the interceptor tests; they are declared
    elsewhere in the package, so the model takes them as a parameter. *)
Record Flags := mkFlags {
  useClientQueueLength : bool;
  useClientTimeExpiration : bool;
  creditsOnFail : bool
}.

(** Modelled from the spec: [useClientQueueLength] is declared elsewhere in
    the package. The specification bounds [pendingOutgoing] and fails a
    call that finds it full without a condition (sections 3 and 4.3), which
    is the interceptor with the switch on. *)
Definition queue_limited (fl : Flags) : Prop := useClientQueueLength fl = true.

(** ** Channel helpers *)

Definition getDemand (b : Breakwater) : Z := Channel.len (pendingOutgoing b).

Definition queueRequest (b : Breakwater) : Breakwater * bool :=
  match Channel.send (pendingOutgoing b) 1 with
  | Some c => (with_pendingOutgoing b c, true)
  | None => (b, false)
  end.

Definition dequeueRequest (b : Breakwater) : Breakwater * bool :=
  match Channel.recv (pendingOutgoing b) with
  | Some (_, c) => (with_pendingOutgoing b c, true)
  | None => (b, false)
  end.

Definition unblockNoCreditBlock (b : Breakwater) : Breakwater :=
  match Channel.send (noCreditBlocker b) 1 with
  | Some c => with_noCreditBlocker b c
  | None => b
  end.

(** ** Statuses, metadata and the transport *)

Inductive Code :=
| OK | Canceled | Unknown | InvalidArgument | DeadlineExceeded | NotFound
| AlreadyExists | PermissionDenied | ResourceExhausted | FailedPrecondition
| Aborted | OutOfRange | Unimplemented | Internal | Unavailable | DataLoss
| Unauthenticated.

Record error := Errorf { code : Code; message : string }.

(** Outgoing metadata of a context: the key-value pairs in the order
    [metadata.AppendToOutgoingContext] added them. *)
Definition outgoing := list (string * string).

Definition AppendToOutgoingContext (ctx : outgoing) (kv : list (string * string))
  : outgoing := ctx ++ kv.

(** What the environment hands to a step: the duration in nanoseconds that
    [time.Since(timeStart)] reports, and the outcome of the transport call
    (its error and the response header it stored). *)
Record input := mkInput {
  elapsed : Z;
  reply_err : option error;
  reply_header : gmap string (list string)
}.

(** [time.Duration.Microseconds]. *)
Definition Microseconds (d : Z) : Z := Z.quot d 1000.

Definition header_get (h : gmap string (list string)) (k : string) : list string :=
  default [] (h !! k).

(** ** The interceptor as a goroutine *)

(** Program points of [UnaryInterceptorClient], named by source line. Each
    is one operation on the shared instance or one call into the
    environment, together with the local computation up to the next one;
    the arguments are the live local variables. *)
Inductive pc :=
| L66                                  (* timeStart, queueRequest, queue test *)
| L80                                  (* <-b.noCreditBlocker, expiry test *)
| L90                                  (* expired: unblockNoCreditBlock *)
| L91                                  (* expired: dequeueRequest, return *)
| L99                                  (* creditBalance := <-b.outgoingCredits *)
| L104 (creditBalance : Z)             (* b.outgoingCredits <- creditBalance *)
| L108                                 (* unblockNoCreditBlock, break *)
| L115                                 (* b.outgoingCredits <- 0 *)
| L124                                 (* getDemand, AppendToOutgoingContext *)
| L131                                 (* dequeueRequest *)
| L134                                 (* invoker(ctx, ...) returns *)
| L139 (err : error)                   (* select on <-b.outgoingCredits *)
| L140 (err : error) (credit : Z)      (* b.outgoingCredits <- credit + 1 *)
| L145 (err : error)                   (* unblockNoCreditBlock, return err *)
| L155 (cXNew : Z)                     (* <-b.outgoingCredits *)
| L156 (cXNew : Z)                     (* b.outgoingCredits <- max(cXNew, 1) *)
| L157                                 (* unblockNoCreditBlock, return *)
| L161                                 (* outgoingCredits := <-b.outgoingCredits *)
| L162 (credits : Z)                   (* b.outgoingCredits <- max(credits, 1) *)
| L163                                 (* unblockNoCreditBlock, return *)
| Ret (result : option error).         (* returned *)

Record goroutine := Go { at_pc : pc; ctx : outgoing }.

Definition start (ctx0 : outgoing) : goroutine := Go L66 ctx0.

(** What a step does to the instance or asks of the environment. *)
Inductive event :=
| EvQueue (added : bool)
| EvWake
| EvUnblock
| EvDequeue (removed : bool)
| EvRecvCredits (v : Z)
| EvSendCredits (v : Z)
| EvNoCredits
| EvDemand (d : Z)
| EvInvoke (md : outgoing).

Definition queue_too_long (b : Breakwater) : error :=
  Errorf ResourceExhausted
    ("Client queue too long, request dropped at client " +:+ id b).

Definition request_expired (b : Breakwater) : error :=
  Errorf ResourceExhausted
    ("Client id " +:+ id b +:+ " request expired in queue.").

Definition recv_credits (b : Breakwater) : option (Z * Breakwater) :=
  match Channel.recv (outgoingCredits b) with
  | Some (v, c) => Some (v, with_outgoingCredits b c)
  | None => None
  end.

Definition send_credits (b : Breakwater) (v : Z) : option Breakwater :=
  match Channel.send (outgoingCredits b) v with
  | Some c => Some (with_outgoingCredits b c)
  | None => None
  end.

Definition wake (b : Breakwater) : option Breakwater :=
  match Channel.recv (noCreditBlocker b) with
  | Some (_, c) => Some (with_noCreditBlocker b c)
  | None => None
  end.

(** One step of a goroutine running [UnaryInterceptorClient] on instance
    [b]. [None]: the goroutine is blocked on a channel, or has returned. *)
Definition UnaryInterceptorClient
    (fl : Flags) (i : input) (b : Breakwater) (g : goroutine)
  : option (Breakwater * goroutine * event) :=
  let goto p := Go p (ctx g) in
  match at_pc g with
  | L66 =>
      let '(b', added) := queueRequest b in
      if useClientQueueLength fl && negb added
      then Some (b', goto (Ret (Some (queue_too_long b'))), EvQueue added)
      else Some (b', goto L80, EvQueue added)
  | L80 =>
      match wake b with
      | None => None
      | Some b' =>
          if useClientTimeExpiration fl
             && (clientExpiration b' <? Microseconds (elapsed i))
          then Some (b', goto L90, EvWake)
          else Some (b', goto L99, EvWake)
      end
  | L90 => Some (unblockNoCreditBlock b, goto L91, EvUnblock)
  | L91 =>
      let '(b', removed) := dequeueRequest b in
      Some (b', goto (Ret (Some (request_expired b'))), EvDequeue removed)
  | L99 =>
      match recv_credits b with
      | None => None
      | Some (creditBalance, b') =>
          if 0 <? creditBalance
          then Some (b', goto (L104 (Int64.sub creditBalance 1)),
                     EvRecvCredits creditBalance)
          else Some (b', goto L115, EvRecvCredits creditBalance)
      end
  | L104 creditBalance =>
      match send_credits b creditBalance with
      | None => None
      | Some b' =>
          Some (b', goto (if 0 <? creditBalance then L108 else L124),
                EvSendCredits creditBalance)
      end
  | L108 => Some (unblockNoCreditBlock b, goto L124, EvUnblock)
  | L115 =>
      match send_credits b 0 with
      | None => None
      | Some b' => Some (b', goto L80, EvSendCredits 0)
      end
  | L124 =>
      let demand := getDemand b in
      Some (b,
            Go L131 (AppendToOutgoingContext (ctx g)
                       [("demand", Strconv.Itoa demand); ("id", id b)]),
            EvDemand demand)
  | L131 =>
      let '(b', removed) := dequeueRequest b in
      Some (b', goto L134, EvDequeue removed)
  | L134 =>
      let next :=
        match reply_err i with
        | Some err => if creditsOnFail fl then L139 err else Ret (Some err)
        | None =>
            match header_get (reply_header i) "credits" with
            | first :: _ => L155 (Strconv.ParseInt first)
            | [] => L161
            end
        end in
      Some (b, goto next, EvInvoke (ctx g))
  | L139 err =>
      match recv_credits b with
      | Some (credit, b') => Some (b', goto (L140 err credit), EvRecvCredits credit)
      | None => Some (b, goto (L145 err), EvNoCredits)
      end
  | L140 err credit =>
      match send_credits b (Int64.add credit 1) with
      | None => None
      | Some b' => Some (b', goto (L145 err), EvSendCredits (Int64.add credit 1))
      end
  | L145 err => Some (unblockNoCreditBlock b, goto (Ret (Some err)), EvUnblock)
  | L155 cXNew =>
      match recv_credits b with
      | None => None
      | Some (v, b') => Some (b', goto (L156 cXNew), EvRecvCredits v)
      end
  | L156 cXNew =>
      match send_credits b (Z.max cXNew 1) with
      | None => None
      | Some b' => Some (b', goto L157, EvSendCredits (Z.max cXNew 1))
      end
  | L157 => Some (unblockNoCreditBlock b, goto (Ret None), EvUnblock)
  | L161 =>
      match recv_credits b with
      | None => None
      | Some (v, b') => Some (b', goto (L162 v), EvRecvCredits v)
      end
  | L162 credits =>
      match send_credits b (Z.max credits 1) with
      | None => None
      | Some b' => Some (b', goto L163, EvSendCredits (Z.max credits 1))
      end
  | L163 => Some (unblockNoCreditBlock b, goto (Ret None), EvUnblock)
  | Ret _ => None
  end.

(** Short name for the step function in statements. *)
Abbreviation step := UnaryInterceptorClient (only parsing).

(** ** Runs *)

(** One observed step: the instance as the goroutine found it, what the
    goroutine did, and the instance as it left it. *)
Record obs := Obs { before : Breakwater; act : event; after : Breakwater }.

(** A goroutine run under interference: before each of its steps the other
    goroutines may have left the instance in any state, so the run is fed
    the instance (and the environment's input) that each step meets.
    [None]: some step could not be taken. *)
Fixpoint run_thread (fl : Flags) (env : list (Breakwater * input)) (g : goroutine)
  : option (goroutine * list obs) :=
  match env with
  | [] => Some (g, [])
  | (b, i) :: rest =>
      match step fl i b g with
      | None => None
      | Some (b', g', e) =>
          match run_thread fl rest g' with
          | None => None
          | Some (g'', tr) => Some (g'', Obs b e b' :: tr)
          end
      end
  end.

(** The instance with the goroutines running the interceptor on it. *)
Record system := Sys { shared : Breakwater; threads : list goroutine }.

(** Goroutine [t] takes a step if it can; a blocked or returned goroutine
    and an index out of range leave the system as it is. *)
Definition sys_step (fl : Flags) (s : system) (ti : nat * input) : system :=
  let '(t, i) := ti in
  match threads s !! t with
  | None => s
  | Some g =>
      match step fl i (shared s) g with
      | None => s
      | Some (b', g', _) => Sys b' (<[t := g']> (threads s))
      end
  end.

Definition sys_run (fl : Flags) (sched : list (nat * input)) (s : system) : system :=
  fold_left (sys_step fl) sched s.


(** The steps a schedule makes, each with the goroutine that took it. *)
Definition step_log (fl : Flags) (s : system) (ti : nat * input) : list (nat * obs) :=
  let '(t, i) := ti in
  match threads s !! t with
  | None => []
  | Some g =>
      match step fl i (shared s) g with
      | None => []
      | Some (b', _, e) => [(t, Obs (shared s) e b')]
      end
  end.

Fixpoint sys_log (fl : Flags) (sched : list (nat * input)) (s : system)
  : list (nat * obs) :=
  match sched with
  | [] => []
  | ti :: rest => step_log fl s ti ++ sys_log fl rest (sys_step fl s ti)
  end.

(** The steps of goroutine [t] in a log. *)
Definition history (t : nat) (log : list (nat * obs)) : list obs :=
  map snd (List.filter (fun x => Nat.eqb x.1 t) log).

(** ** What a run did *)

(** A receive takes the oldest balance out of [outgoingCredits], a send
    adds one at the end, and no other step touches that channel. *)
Definition credit_effect (o : obs) : Prop :=
  match act o with
  | EvRecvCredits v => recv_credits (before o) = Some (v, after o)
  | EvSendCredits v => send_credits (before o) v = Some (after o)
  | _ => outgoingCredits (after o) = outgoingCredits (before o)
  end.

(** The same, read off the buffer of [outgoingCredits] alone. *)
Definition counter_effect (o : obs) : Prop :=
  match act o with
  | EvRecvCredits v =>
      buf (outgoingCredits (before o)) = v :: buf (outgoingCredits (after o))
  | EvSendCredits v =>
      buf (outgoingCredits (after o)) = buf (outgoingCredits (before o)) ++ [v]
  | _ => buf (outgoingCredits (after o)) = buf (outgoingCredits (before o))
  end.

(** Every balance in the channel is an [int64]. *)
Definition int64_credits (b : Breakwater) : Prop :=
  Forall Int64.in_range (buf (outgoingCredits b)).

Definition typed_env (env : list (Breakwater * input)) : Prop :=
  Forall (fun bi => int64_credits bi.1) env.

(** The events of the waiting loop for the balances [zs] it met: a
    wake-up, the read of the balance, and the write of 0. *)
Definition loops (zs : list Z) : list event :=
  flat_map (fun u => [EvWake; EvRecvCredits u; EvSendCredits 0]) zs.

(** The signal an admitted caller passes on when credits are left. *)
Definition cascade (left : Z) : list event :=
  if 0 <? left then [EvUnblock] else [].

(** The events of a run so far: the enqueue, some turns of the loop that
    met balances that were not positive, and [tail]. With the queue-length
    switch on the enqueue succeeded. *)
Definition gate_prefix (fl : Flags) (tr : list obs) (tail : list event) : Prop :=
  exists added zs,
    (queue_limited fl -> added = true) /\
    Forall (fun u => u <= 0) zs /\
    map act tr = EvQueue added :: loops zs ++ tail.

Definition read_none (fl : Flags) (tr : list obs) : Prop :=
  exists u, u <= 0 /\ gate_prefix fl tr [EvWake; EvRecvCredits u].

Definition read_some (fl : Flags) (tr : list obs) (creditBalance : Z) : Prop :=
  exists v, 0 < v /\ creditBalance = v - 1 /\
    gate_prefix fl tr [EvWake; EvRecvCredits v].

(** The loop ended: after a wake-up a positive balance [v] was read and
    [v - 1] put back, and the signal was passed on if credits are left. *)
Definition admitted (fl : Flags) (tr : list obs) : Prop :=
  exists v, 0 < v /\
    gate_prefix fl tr
      ([EvWake; EvRecvCredits v; EvSendCredits (v - 1)] ++ cascade (v - 1)).

Definition sampled (b : Breakwater) : obs := Obs b (EvDemand (getDemand b)) b.

Definition dequeued (b : Breakwater) : obs :=
  Obs b (EvDequeue (dequeueRequest b).2) (dequeueRequest b).1.

Definition demand_md (ctx0 : outgoing) (b : Breakwater) : outgoing :=
  ctx0 ++ [("demand", Strconv.Itoa (getDemand b)); ("id", id b)].

Section Gate.

Variable fl : Flags.
(** What is known of the instances a goroutine samples the demand on and
    dequeues from. *)
Variable P : Breakwater -> Prop.
(** The outgoing metadata the caller passed in. *)
Variable ctx0 : outgoing.

(** What holds of a goroutine that started at the entry and has not yet
    called the transport, by program point. *)
Definition gate_inv (g : goroutine) (tr : list obs) : Prop :=
  match at_pc g with
  | L66 => tr = [] /\ ctx g = ctx0
  | L80 => gate_prefix fl tr [] /\ ctx g = ctx0
  | L99 => gate_prefix fl tr [EvWake] /\ ctx g = ctx0
  | L115 => read_none fl tr /\ ctx g = ctx0
  | L104 creditBalance => read_some fl tr creditBalance /\ ctx g = ctx0
  | L108 =>
      (exists v, 1 < v /\
         gate_prefix fl tr [EvWake; EvRecvCredits v; EvSendCredits (v - 1)]) /\
      ctx g = ctx0
  | L124 => admitted fl tr /\ ctx g = ctx0
  | L131 =>
      exists pre bd, tr = pre ++ [sampled bd] /\ admitted fl pre /\
        ctx g = demand_md ctx0 bd /\ P bd
  | L134 =>
      exists pre bd bq, tr = pre ++ [sampled bd; dequeued bq] /\
        admitted fl pre /\ ctx g = demand_md ctx0 bd /\ P bd /\ P bq
  | _ => True
  end.

End Gate.

(** ** Invariants of the instance and its callers *)

(** What a goroutine holds between a read and the write that follows is an
    [int64]. *)
Definition holds_typed (g : goroutine) : Prop :=
  match at_pc g with
  | L104 v | L140 _ v | L155 v | L156 v | L162 v => Int64.in_range v
  | _ => True
  end.

Definition typed_system (s : system) : Prop :=
  int64_credits (shared s) /\ Forall holds_typed (threads s).

(** No goroutine is on the refund path and every balance held or queued is
    a non-negative [int64]. *)
Definition holds_nonneg (g : goroutine) : Prop :=
  match at_pc g with
  | L104 creditBalance => 0 <= creditBalance <= Int64.max_int
  | L139 _ | L140 _ _ | L145 _ => False
  | L155 cXNew | L156 cXNew => cXNew <= Int64.max_int
  | L162 credits => 0 <= credits <= Int64.max_int
  | _ => True
  end.

Definition nonneg_credits (b : Breakwater) : Prop :=
  Forall (fun v => 0 <= v <= Int64.max_int) (buf (outgoingCredits b)).

Definition nonneg_system (s : system) : Prop :=
  nonneg_credits (shared s) /\ Forall holds_nonneg (threads s).

(** Program points between a successful [queueRequest] and the matching
    [dequeueRequest]. *)
Definition queued (g : goroutine) : bool :=
  match at_pc g with
  | L80 | L90 | L91 | L99 | L104 _ | L108 | L115 | L124 | L131 => true
  | _ => false
  end.

Definition count_queued (ts : list goroutine) : nat :=
  length (List.filter queued ts).

(** Every waiting or admitted caller has its entry in the queue. *)
Definition queue_accounted (s : system) : Prop :=
  length (buf (pendingOutgoing (shared s))) = count_queued (threads s).

(** With the queue-length switch on, the sampled queue is not empty. *)
Definition counted (fl : Flags) (b : Breakwater) : Prop :=
  queue_limited fl -> 1 <= getDemand b.

(** Callers about to enter the interceptor on an instance whose queue is
    empty and whose balances are [int64]s. *)
Definition initial (s : system) : Prop :=
  buf (pendingOutgoing (shared s)) = [] /\
  int64_credits (shared s) /\
  Forall (fun g => at_pc g = L66) (threads s).

(** Each caller's steps so far satisfy the gate invariant. *)
Definition callers_inv (fl : Flags) (s0 s : system) (log : list (nat * obs)) : Prop :=
  forall t ctx0,
    threads s0 !! t = Some (start ctx0) ->
    exists g, threads s !! t = Some g /\
      gate_inv fl (counted fl) ctx0 g (history t log).

(** ** Concrete instances and runs *)

(** Modelled from the spec: the constructor of [Breakwater] is declared
    elsewhere in the package. Section 9 of the specification makes [outgoingCredits] and
    [noCreditBlocker] queues of capacity one, and section 3 bounds
    [pendingOutgoing] by a small constant such as 50. The wake-up signal is
    taken to be raised at construction. *)
Definition instance (capacity : nat) (credits expiration : Z) (name : string)
  : Breakwater :=
  mkBreakwater (Chan [] capacity) (Chan [1] 1) (Chan [credits] 1) expiration name.

Definition all_on : Flags := mkFlags true true true.

(** A reply without error and without header, after [us] microseconds. *)
Definition silent (us : Z) : input := mkInput (us * 1000) None ∅.

(** A failed call. *)
Definition failed (c : Code) (msg : string) : input :=
  mkInput 0 (Some (Errorf c msg)) ∅.

(** A reply granting [v] as the text of the [credits] header. *)
Definition granted (v : string) : input :=
  mkInput 0 None {[ "credits" := [v] ]}.

(** The instances a goroutine meets when it runs alone. *)
Fixpoint solo (fl : Flags) (ins : list input) (b : Breakwater) (g : goroutine)
  : list (Breakwater * input) :=
  match ins with
  | [] => []
  | i :: rest =>
      match step fl i b g with
      | None => []
      | Some (b', g', _) => (b, i) :: solo fl rest b' g'
      end
  end.

Definition trace_of (r : option (goroutine * list obs)) : list obs :=
  match r with
  | Some (_, tr) => tr
  | None => []
  end.

(** Two callers share an instance holding two credits. *)
Definition two_callers : system :=
  Sys (instance 50 2 1000 "c1") [start []; start []].

(** The first caller is admitted and its call is in flight; the second is
    admitted, its reply grants the largest [int64], and it returns; then
    the first call fails and its credit is added back. *)
Definition refund_schedule : list (nat * input) :=
  replicate 7 (0%nat, silent 5) ++
  replicate 6 (1%nat, silent 5) ++
  [(1%nat, granted "9223372036854775807")] ++
  replicate 3 (1%nat, silent 5) ++
  [(0%nat, failed Unavailable "transport is closing")] ++
  replicate 3 (0%nat, silent 5).

(** A caller finds the balance at 0, puts it back and waits; another
    call's reply then stores 3 credits and signals, and the caller is
    admitted. The instances are those the caller meets at its steps. *)
Definition looping_env : list (Breakwater * input) :=
  Eval vm_compute in
    solo all_on (replicate 4 (silent 5)) (instance 50 0 1000 "c1") (start [])
    ++ solo all_on (replicate 6 (silent 5))
         (mkBreakwater (Chan [1] 50) (Chan [1] 1) (Chan [3] 1) 1000 "c1") (Go L80 []).

Definition looping_trace : list obs :=
  Eval vm_compute in trace_of (run_thread all_on looping_env (start [])).

Definition looping_last : Breakwater :=
  Eval vm_compute in
    match last looping_trace with
    | Some o => after o
    | None => instance 50 0 1000 "c1"
    end.

(** The second caller enqueues, then the first runs up to its transport
    call. *)
Definition crowded_schedule : list (nat * input) :=
  (1%nat, silent 5) :: replicate 7 (0%nat, silent 5).

(** ** The balance as a token, the configuration, the outcome of a call *)

(** Program points between a receive from [outgoingCredits] and the send
    that follows it: the goroutine holds the balance. *)
Definition holding (g : goroutine) : bool :=
  match at_pc g with
  | L104 _ | L115 | L140 _ _ | L156 _ | L162 _ => true
  | _ => false
  end.

Definition count_holding (ts : list goroutine) : nat :=
  length (List.filter holding ts).

(** The balances there are: those in the channel and those held. *)
Definition tokens (s : system) : nat :=
  (length (buf (outgoingCredits (shared s))) + count_holding (threads s))%nat.

(** What the interceptor only reads: the capacities of the channels, the
    expiration and the identity. *)
Definition same_config (b b' : Breakwater) : Prop :=
  cap (pendingOutgoing b') = cap (pendingOutgoing b) /\
  cap (noCreditBlocker b') = cap (noCreditBlocker b) /\
  cap (outgoingCredits b') = cap (outgoingCredits b) /\
  clientExpiration b' = clientExpiration b /\
  id b' = id b.

Definition within (c : chan) : Prop := (length (buf c) <= cap c)%nat.

Definition within_capacity (b : Breakwater) : Prop :=
  within (pendingOutgoing b) /\ within (noCreditBlocker b) /\
  within (outgoingCredits b).

Definition is_invoke (e : event) : bool :=
  match e with
  | EvInvoke _ => true
  | _ => false
  end.

(** The transport calls of a run. *)
Definition invokes (tr : list obs) : list obs :=
  List.filter (fun o => is_invoke (act o)) tr.

(** The run called the transport exactly once, at its step [k], and [r]
    is the error the transport returned there. *)
Definition transport_replied
    (env : list (Breakwater * input)) (tr : list obs) (r : option error) : Prop :=
  exists k b i md,
    env !! k = Some (b, i) /\
    tr !! k = Some (Obs b (EvInvoke md) b) /\
    reply_err i = r /\
    length (invokes tr) = 1%nat.

(** The run never called the transport and [r] is one of the two statuses
    the interceptor makes itself, under the switch that enables it. *)
Definition dropped_locally (fl : Flags) (tr : list obs) (r : option error) : Prop :=
  invokes tr = [] /\
  exists b,
    (useClientQueueLength fl = true /\ r = Some (queue_too_long b)) \/
    (useClientTimeExpiration fl = true /\ r = Some (request_expired b)).

(** Where a call stands with respect to the transport, by program point. *)
Definition outcome_inv (fl : Flags) (env : list (Breakwater * input))
    (g : goroutine) (tr : list obs) : Prop :=
  match at_pc g with
  | L66 | L80 | L99 | L104 _ | L108 | L115 | L124 | L131 | L134 =>
      invokes tr = []
  | L90 | L91 => invokes tr = [] /\ useClientTimeExpiration fl = true
  | L139 err | L140 err _ | L145 err => transport_replied env tr (Some err)
  | L155 _ | L156 _ | L157 | L161 | L162 _ | L163 => transport_replied env tr None
  | Ret r => dropped_locally fl tr r \/ transport_replied env tr r
  end.

(** The goroutine waits for a wake-up or has returned. *)
Definition waiting_or_done (g : goroutine) : Prop :=
  match at_pc g with
  | L80 | Ret _ => True
  | _ => False
  end.

(** No wake-up is queued and nobody is left to send one. *)
Definition stalled (s : system) : Prop :=
  buf (noCreditBlocker (shared s)) = [] /\ Forall waiting_or_done (threads s).

(** An instance with one balance and nobody holding it. *)
Definition one_balance (s : system) : Prop :=
  length (buf (outgoingCredits (shared s))) = 1%nat /\
  (1 <= cap (outgoingCredits (shared s)))%nat /\
  count_holding (threads s) = 0%nat.

(** A caller with three credits runs alone: admitted, called, granted four
    credits by the reply, returned. *)
Definition whole_env : list (Breakwater * input) :=
  solo all_on (replicate 7 (silent 5) ++ [granted "4"] ++ replicate 3 (silent 5))
    (instance 50 3 1000 "c1") (start []).

Definition whole_trace : list obs :=
  trace_of (run_thread all_on whole_env (start [])).

(** The instance a lone caller finds: a queue [q] of capacity [qc], a
    wake-up queued and the balance [v], in channels of capacity one. *)
Definition found (q : list Z) (qc : nat) (v ex : Z) (nm : string) : Breakwater :=
  mkBreakwater (Chan q qc) (Chan [1] 1) (Chan [v] 1) ex nm.

(** The metadata of its call: the demand counts the queue and itself. *)
Definition sent (c : outgoing) (q : list Z) (nm : string) : outgoing :=
  c ++ [("demand", Strconv.Itoa (Z.of_nat (S (length q)))); ("id", nm)].

(** * Proofs *)

(** Splits the result of a step along the tests the step function makes. *)
Ltac step_cases H :=
  repeat match type of H with
    | context [let '(_, _) := ?x in _] => destruct x as [? ?] eqn:?
    | context [match ?x with _ => _ end] => destruct x eqn:?
    | None = Some _ => discriminate H
    end.

(** Turns the boolean comparisons a step made into inequalities. *)
Ltac reflect_tests :=
  repeat match goal with
    | H : (_ <? _) = true |- _ => apply Z.ltb_lt in H
    | H : (_ <? _) = false |- _ => apply Z.ltb_ge in H
    end.

(** ** Machine integers and channels *)

Lemma int64_wrap_in_range z : Int64.in_range (Int64.wrap z).
Proof.
  unfold Int64.in_range, Int64.wrap, Int64.min_int, Int64.max_int.
  pose proof (Z.mod_pos_bound (z + 2 ^ 63) (2 ^ 64) ltac:(lia)). lia.
Qed.

Lemma int64_wrap_id z : Int64.in_range z -> Int64.wrap z = z.
Proof.
  unfold Int64.in_range, Int64.wrap, Int64.min_int, Int64.max_int. intros Hz.
  rewrite Z.mod_small; lia.
Qed.

Lemma int64_sub_one_pos v : Int64.in_range v -> 0 < v -> Int64.sub v 1 = v - 1.
Proof.
  unfold Int64.sub. intros Hv Hpos. apply int64_wrap_id.
  unfold Int64.in_range, Int64.min_int, Int64.max_int in *. lia.
Qed.

Lemma int64_add_one_small v :
  Int64.in_range v -> v < Int64.max_int -> Int64.add v 1 = v + 1.
Proof.
  unfold Int64.add. intros Hv Hlt. apply int64_wrap_id.
  unfold Int64.in_range, Int64.min_int, Int64.max_int in *. lia.
Qed.

Lemma int64_add_one_max : Int64.add Int64.max_int 1 = Int64.min_int.
Proof. reflexivity. Qed.

Lemma chan_send_full c v : Channel.full c -> Channel.send c v = None.
Proof.
  unfold Channel.full, Channel.send. intros Hfull.
  destruct (Nat.ltb_spec (length (buf c)) (cap c)); [lia | reflexivity].
Qed.

Lemma parse_digits_nonneg s n m :
  0 <= n -> Strconv.parse_digits s n = Strconv.UValue m -> 0 <= m.
Proof.
  revert n. induction s as [|c s IH]; intros n Hn; simpl.
  - intros [= <-]. assumption.
  - unfold Strconv.digit.
    destruct ((48 <=? Z.of_N (N_of_ascii c)) && (Z.of_N (N_of_ascii c) <=? 57))
      eqn:Hdigit; [|discriminate].
    apply andb_prop in Hdigit as [Hlo _]. apply Z.leb_le in Hlo.
    destruct ((2 ^ 64 - 1) / 10 + 1 <=? n); [discriminate|].
    destruct (2 ^ 64 - 1 <? n * 10 + (Z.of_N (N_of_ascii c) - 48)); [discriminate|].
    apply IH. lia.
Qed.

Lemma ParseInt_in_range s : Int64.in_range (Strconv.ParseInt s).
Proof.
  unfold Strconv.ParseInt, Int64.in_range, Int64.min_int, Int64.max_int.
  destruct s as [|c rest]; [lia|].
  match goal with
  | |- context [Strconv.ParseUint ?d] => generalize d; intros digits
  end.
  destruct (Strconv.ParseUint digits) as [n| |] eqn:Hparse; [|lia|].
  - assert (0 <= n) as Hn.
    { unfold Strconv.ParseUint in Hparse. destruct digits; [discriminate|].
      eapply parse_digits_nonneg; [|eassumption]. lia. }
    destruct (Ascii.eqb c "-"); simpl.
    + destruct (Z.ltb_spec (2 ^ 63) n); lia.
    + destruct (Z.leb_spec (2 ^ 63) n); lia.
  - destruct (Ascii.eqb c "-"); simpl; lia.
Qed.

(** ** What the helpers leave alone *)

Lemma recv_credits_Some b v b' :
  recv_credits b = Some (v, b') ->
  buf (outgoingCredits b) = v :: buf (outgoingCredits b') /\
  pendingOutgoing b' = pendingOutgoing b.
Proof.
  unfold recv_credits, Channel.recv.
  destruct (buf (outgoingCredits b)) as [|x rest] eqn:E; [discriminate|].
  intros [= <- <-]. simpl. auto.
Qed.

Lemma send_credits_Some b v b' :
  send_credits b v = Some b' ->
  buf (outgoingCredits b') = buf (outgoingCredits b) ++ [v] /\
  pendingOutgoing b' = pendingOutgoing b.
Proof.
  unfold send_credits, Channel.send.
  destruct (length (buf (outgoingCredits b)) <? cap (outgoingCredits b))%nat;
    [|discriminate].
  intros [= <-]. simpl. auto.
Qed.

Lemma wake_Some b b' :
  wake b = Some b' ->
  outgoingCredits b' = outgoingCredits b /\
  pendingOutgoing b' = pendingOutgoing b /\
  clientExpiration b' = clientExpiration b.
Proof.
  unfold wake. destruct (Channel.recv _) as [[? ?]|]; [|discriminate].
  intros [= <-]. auto.
Qed.

Lemma queueRequest_credits b : outgoingCredits (queueRequest b).1 = outgoingCredits b.
Proof. unfold queueRequest. destruct (Channel.send _ _); reflexivity. Qed.

Lemma dequeueRequest_credits b : outgoingCredits (dequeueRequest b).1 = outgoingCredits b.
Proof. unfold dequeueRequest. destruct (Channel.recv _) as [[? ?]|]; reflexivity. Qed.


Lemma dequeueRequest_shape b :
  buf (pendingOutgoing (dequeueRequest b).1) = tail (buf (pendingOutgoing b)) /\
  ((dequeueRequest b).2 = true <-> buf (pendingOutgoing b) <> []) /\
  noCreditBlocker (dequeueRequest b).1 = noCreditBlocker b /\
  outgoingCredits (dequeueRequest b).1 = outgoingCredits b.
Proof.
  unfold dequeueRequest, Channel.recv.
  destruct (buf (pendingOutgoing b)) as [|x rest] eqn:Hbuf; simpl.
  - rewrite Hbuf. repeat split; try reflexivity; [discriminate | congruence].
  - repeat split; try reflexivity. discriminate.
Qed.

Lemma unblock_credits b : outgoingCredits (unblockNoCreditBlock b) = outgoingCredits b.
Proof. unfold unblockNoCreditBlock. destruct (Channel.send _ _); reflexivity. Qed.

Lemma unblock_pending b : pendingOutgoing (unblockNoCreditBlock b) = pendingOutgoing b.
Proof. unfold unblockNoCreditBlock. destruct (Channel.send _ _); reflexivity. Qed.


Lemma queueRequest_length b :
  length (buf (pendingOutgoing (queueRequest b).1))
  = (length (buf (pendingOutgoing b)) + Nat.b2n (queueRequest b).2)%nat.
Proof.
  unfold queueRequest, Channel.send.
  destruct (length (buf (pendingOutgoing b)) <? cap (pendingOutgoing b))%nat; simpl.
  - rewrite length_app. reflexivity.
  - lia.
Qed.

Lemma dequeueRequest_length b :
  (1 <= length (buf (pendingOutgoing b)))%nat ->
  (length (buf (pendingOutgoing (dequeueRequest b).1)) + 1
   = length (buf (pendingOutgoing b)))%nat.
Proof.
  unfold dequeueRequest, Channel.recv.
  destruct (buf (pendingOutgoing b)) as [|x rest]; simpl; lia.
Qed.

Lemma recv_credits_typed b v b' :
  int64_credits b -> recv_credits b = Some (v, b') ->
  Int64.in_range v /\ int64_credits b'.
Proof.
  unfold int64_credits. intros Hty Hrecv.
  apply recv_credits_Some in Hrecv as [Hbuf _]. rewrite Hbuf in Hty.
  apply Forall_cons in Hty. assumption.
Qed.

Lemma send_credits_typed b v b' :
  int64_credits b -> Int64.in_range v -> send_credits b v = Some b' ->
  int64_credits b'.
Proof.
  unfold int64_credits. intros Hty Hv Hsend.
  apply send_credits_Some in Hsend as [-> _].
  apply Forall_app. split; [assumption|]. constructor; [assumption | constructor].
Qed.

(** ** Runs and their traces *)

Lemma gate_prefix_snoc fl tr tail o :
  gate_prefix fl tr tail -> gate_prefix fl (tr ++ [o]) (tail ++ [act o]).
Proof.
  intros (added & zs & Hadded & Hzs & Hevs). exists added, zs.
  repeat split; try assumption.
  rewrite map_app, Hevs. simpl. rewrite <- app_assoc. reflexivity.
Qed.

(** Closes a goal on a run one step longer with the fact [H] on the run. *)
Ltac snoc_prefix H :=
  match goal with
  | |- context [?tr ++ [?o]] => apply (gate_prefix_snoc _ _ _ o) in H; exact H
  end.

Lemma loops_snoc zs u :
  loops (zs ++ [u]) = loops zs ++ [EvWake; EvRecvCredits u; EvSendCredits 0].
Proof. unfold loops. rewrite flat_map_app. simpl. reflexivity. Qed.

(** A turn of the loop that met no credit is one more of the turns. *)
Lemma gate_prefix_turn fl tr u :
  u <= 0 ->
  gate_prefix fl tr [EvWake; EvRecvCredits u; EvSendCredits 0] ->
  gate_prefix fl tr [].
Proof.
  intros Hu (added & zs & Hadded & Hzs & Hevs). exists added, (zs ++ [u]).
  repeat split; try assumption.
  - apply Forall_app. split; [assumption|]. constructor; [assumption | constructor].
  - rewrite Hevs, loops_snoc, app_nil_r. reflexivity.
Qed.

Lemma admitted_snoc fl pre o1 o2 :
  admitted fl pre ->
  exists added zs v,
    (queue_limited fl -> added = true) /\
    Forall (fun u => u <= 0) zs /\ 0 < v /\
    map act (pre ++ [o1; o2]) =
      EvQueue added :: loops zs
        ++ [EvWake; EvRecvCredits v; EvSendCredits (v - 1)] ++ cascade (v - 1)
        ++ [act o1; act o2].
Proof.
  intros (v & Hv & added & zs & Hadded & Hzs & Hevs). exists added, zs, v.
  repeat split; try assumption.
  rewrite map_app, Hevs. simpl. rewrite <- !app_assoc. reflexivity.
Qed.

Lemma run_thread_app fl env1 env2 g :
  run_thread fl (env1 ++ env2) g =
    match run_thread fl env1 g with
    | None => None
    | Some (g1, tr1) =>
        match run_thread fl env2 g1 with
        | None => None
        | Some (g2, tr2) => Some (g2, tr1 ++ tr2)
        end
    end.
Proof.
  revert g. induction env1 as [|[b i] env1 IH]; intros g; simpl.
  - destruct (run_thread fl env2 g) as [[g2 tr2]|]; reflexivity.
  - destruct (step fl i b g) as [[[b' g'] e]|]; [|reflexivity].
    rewrite IH. destruct (run_thread fl env1 g') as [[g1 tr1]|]; [|reflexivity].
    destruct (run_thread fl env2 g1) as [[g2 tr2]|]; reflexivity.
Qed.

Lemma run_thread_snoc fl env b i g g2 tr :
  run_thread fl (env ++ [(b, i)]) g = Some (g2, tr) ->
  exists g1 tr1 b' e,
    run_thread fl env g = Some (g1, tr1) /\
    step fl i b g1 = Some (b', g2, e) /\
    tr = tr1 ++ [Obs b e b'].
Proof.
  rewrite run_thread_app.
  destruct (run_thread fl env g) as [[g1 tr1]|] eqn:Hrun; [|discriminate].
  simpl. destruct (step fl i b g1) as [[[b' g'] e]|] eqn:Hstep; [|discriminate].
  intros [= <- <-]. exists g1, tr1, b', e. auto.
Qed.

Lemma invoke_at_L134 fl i b g b' g' md :
  step fl i b g = Some (b', g', EvInvoke md) -> at_pc g = L134 /\ md = ctx g.
Proof.
  intros Hstep. destruct g as [p c]. unfold UnaryInterceptorClient in Hstep.
  destruct p; simpl in Hstep; step_cases Hstep; try discriminate Hstep.
  all: injection Hstep as <- <- <-; auto.
Qed.

(** ** The gate invariant *)

Lemma gate_inv_step fl (P : Breakwater -> Prop) ctx0 g tr b i b' g' e :
  int64_credits b ->
  (queued g = true -> P b) ->
  gate_inv fl P ctx0 g tr ->
  step fl i b g = Some (b', g', e) ->
  gate_inv fl P ctx0 g' (tr ++ [Obs b e b']).
Proof.
  intros Hty Hsample Hinv Hstep. destruct g as [p c]. unfold UnaryInterceptorClient in Hstep.
  unfold gate_inv in *.
  destruct p; simpl in Hstep, Hinv, Hsample; step_cases Hstep;
    injection Hstep as <- <- <-; simpl; try exact I;
    try (destruct Hinv as [Hinv ->]; split; [|reflexivity]).
  all: reflect_tests.
  - (* line 66, queued or the switch is off *)
    subst tr. simpl.
    match goal with
    | H : _ && negb ?a = false |- _ =>
        exists a, []; repeat split; [|constructor];
        intros Hflag; unfold queue_limited in Hflag; rewrite Hflag in H;
        destruct a; [reflexivity | discriminate H]
    end.
  - (* line 80, in time *)
    snoc_prefix Hinv.
  - (* line 99, a positive balance *)
    match goal with
    | H : recv_credits b = Some (?v, _) |- _ =>
        exists v; apply (recv_credits_typed _ _ _ Hty) in H as [Hv _]
    end.
    repeat split; try assumption.
    + apply int64_sub_one_pos; assumption.
    + snoc_prefix Hinv.
  - (* line 99, no credit *)
    match goal with
    | H : recv_credits b = Some (?v, _) |- _ => exists v
    end.
    split; [assumption|]. snoc_prefix Hinv.
  - (* line 104, credits remain *)
    destruct Hinv as (v & Hv & -> & Hpre). exists v. split; [lia|].
    snoc_prefix Hpre.
  - (* line 104, the last credit *)
    destruct Hinv as (v & Hv & -> & Hpre). exists v. split; [assumption|].
    unfold cascade. destruct (Z.ltb_spec 0 (v - 1)); [lia|]. rewrite app_nil_r.
    snoc_prefix Hpre.
  - (* line 108 *)
    destruct Hinv as (v & Hv & Hpre). exists v. split; [lia|].
    unfold cascade. destruct (Z.ltb_spec 0 (v - 1)); [|lia].
    snoc_prefix Hpre.
  - (* line 115 *)
    destruct Hinv as (u & Hu & Hpre). apply (gate_prefix_turn _ _ u Hu).
    snoc_prefix Hpre.
  - (* line 124 *)
    destruct Hinv as [Hadm ->]. exists tr, b. auto.
  - (* line 131 *)
    destruct Hinv as (pre & bd & -> & Hadm & -> & HP). exists pre, bd, b.
    repeat split; try assumption; [|apply Hsample; reflexivity].
    rewrite <- app_assoc. unfold dequeued.
    match goal with
    | H : dequeueRequest b = _ |- _ => rewrite H
    end.
    reflexivity.
Qed.

Lemma gate_inv_start fl P ctx0 : gate_inv fl P ctx0 (start ctx0) [].
Proof. split; reflexivity. Qed.

(** A goroutine under arbitrary interference keeps the invariant. *)
Lemma gate_inv_run fl ctx0 env g tr :
  typed_env env ->
  run_thread fl env (start ctx0) = Some (g, tr) ->
  gate_inv fl (fun _ => True) ctx0 g tr.
Proof.
  revert g tr. induction env as [|[b i] env IH] using rev_ind; intros g tr Hty Hrun.
  - injection Hrun as <- <-. apply gate_inv_start.
  - apply Forall_app in Hty as [Hty Hb].
    apply run_thread_snoc in Hrun as (g1 & tr1 & b' & e & Hrun & Hstep & ->).
    eapply gate_inv_step; [| | apply IH | ]; try eassumption; [|auto].
    apply Forall_cons in Hb. tauto.
Qed.

(** ** Effects of a step on the credit counter *)

Lemma step_credit_effect fl i b g b' g' e :
  step fl i b g = Some (b', g', e) -> credit_effect (Obs b e b').
Proof.
  intros Hstep. destruct g as [p c]. unfold UnaryInterceptorClient in Hstep. unfold credit_effect.
  destruct p; simpl in Hstep; step_cases Hstep; injection Hstep as <- <- <-; simpl;
    auto using unblock_credits.
  all: match goal with
       | H : queueRequest ?b = (?b1, _) |- outgoingCredits ?b1 = _ =>
           pose proof (queueRequest_credits b) as Hc; rewrite H in Hc; exact Hc
       | H : dequeueRequest ?b = (?b1, _) |- outgoingCredits ?b1 = _ =>
           pose proof (dequeueRequest_credits b) as Hc; rewrite H in Hc; exact Hc
       | H : wake _ = Some _ |- _ => apply wake_Some in H; tauto
       end.
Qed.

Lemma credit_effect_counter o : credit_effect o -> counter_effect o.
Proof.
  unfold credit_effect, counter_effect. destruct (act o); intros Heff.
  all: try (rewrite Heff; reflexivity).
  - apply recv_credits_Some in Heff. tauto.
  - apply send_credits_Some in Heff. tauto.
Qed.

Lemma run_thread_effects fl env g g' tr :
  run_thread fl env g = Some (g', tr) -> Forall credit_effect tr.
Proof.
  revert g g' tr. induction env as [|[b i] env IH]; intros g g' tr; simpl.
  - intros [= <- <-]. constructor.
  - destruct (step fl i b g) as [[[b1 g1] e]|] eqn:Hstep; [|discriminate].
    destruct (run_thread fl env g1) as [[g2 tr2]|] eqn:Hrun; [|discriminate].
    intros [= <- <-]. constructor; [|eapply IH; eassumption].
    eapply step_credit_effect; eassumption.
Qed.

Lemma run_thread_counter fl env g g' tr :
  run_thread fl env g = Some (g', tr) -> Forall counter_effect tr.
Proof.
  intros Hrun. eapply Forall_impl; [eapply run_thread_effects; eassumption|].
  apply credit_effect_counter.
Qed.

(** ** Schedules *)

Lemma sys_run_snoc fl sched ti s :
  sys_run fl (sched ++ [ti]) s = sys_step fl (sys_run fl sched s) ti.
Proof. unfold sys_run. rewrite fold_left_app. reflexivity. Qed.

Lemma sys_log_snoc fl sched ti s :
  sys_log fl (sched ++ [ti]) s
  = sys_log fl sched s ++ step_log fl (sys_run fl sched s) ti.
Proof.
  revert s. induction sched as [|x sched IH]; intros s; simpl.
  - rewrite app_nil_r. reflexivity.
  - rewrite IH, app_assoc. reflexivity.
Qed.

Lemma history_app t log1 log2 :
  history t (log1 ++ log2) = history t log1 ++ history t log2.
Proof. unfold history. rewrite List.filter_app, map_app. reflexivity. Qed.

Lemma history_own t o : history t [(t, o)] = [o].
Proof. unfold history. simpl. rewrite Nat.eqb_refl. reflexivity. Qed.

Lemma history_other t u o : u <> t -> history t [(u, o)] = [].
Proof.
  intros Hne. unfold history. simpl.
  destruct (Nat.eqb_spec u t); [contradiction | reflexivity].
Qed.

(** An invariant of the steps is an invariant of the schedules. *)
Lemma sys_run_inv (I : system -> Prop) fl sched s :
  (forall s ti, I s -> I (sys_step fl s ti)) -> I s -> I (sys_run fl sched s).
Proof.
  intros Hstep. revert s. unfold sys_run.
  induction sched as [|ti sched IH]; intros s Hs; simpl; [assumption|].
  apply IH, Hstep, Hs.
Qed.

(** ** Balances stay in [int64] *)

Lemma typed_step fl i b g b' g' e :
  step fl i b g = Some (b', g', e) ->
  int64_credits b -> holds_typed g ->
  int64_credits b' /\ holds_typed g'.
Proof.
  intros Hstep Hb Hg.
  pose proof (step_credit_effect _ _ _ _ _ _ _ Hstep) as Heff.
  destruct g as [p c]. unfold UnaryInterceptorClient in Hstep.
  unfold holds_typed, credit_effect, int64_credits in *.
  destruct p; simpl in Hstep, Hg; step_cases Hstep;
    injection Hstep as <- <- <-; simpl in Heff |- *;
    try (rewrite Heff; split; [assumption | try exact I]);
    try (destruct (recv_credits_typed _ _ _ Hb Heff) as [Hv Hb'];
         split; [exact Hb' | try exact I; try exact Hv; try exact Hg]);
    try (split; [eapply (send_credits_typed _ _ _ Hb); [|exact Heff] | try exact I]).
  all: try (split; [assumption|]).
  all: try exact I.
  all: try apply int64_wrap_in_range.
  all: try apply ParseInt_in_range.
  all: try assumption.
  all: unfold Int64.in_range, Int64.min_int, Int64.max_int in *; lia.
Qed.

Lemma typed_sys_step fl s ti : typed_system s -> typed_system (sys_step fl s ti).
Proof.
  intros [Hb Hts]. destruct ti as [t i]. unfold sys_step.
  destruct (threads s !! t) as [g|] eqn:Hg; [|split; assumption].
  destruct (step fl i (shared s) g) as [[[b' g'] e]|] eqn:Hstep; [|split; assumption].
  assert (holds_typed g) as Hhold by (eapply Forall_lookup_1; eassumption).
  destruct (typed_step _ _ _ _ _ _ _ Hstep Hb Hhold) as [Hb' Hg'].
  split; simpl; [assumption|]. apply Forall_insert; assumption.
Qed.

Lemma typed_run fl sched s : typed_system s -> typed_system (sys_run fl sched s).
Proof. apply sys_run_inv. intros. apply typed_sys_step. assumption. Qed.

(** ** Every queued caller has an entry *)

Lemma count_queued_insert ts t g g' :
  ts !! t = Some g ->
  (count_queued (<[t := g']> ts) + Nat.b2n (queued g)
   = count_queued ts + Nat.b2n (queued g'))%nat.
Proof.
  unfold count_queued. revert t. induction ts as [|x ts IH]; intros t Hlook.
  - discriminate.
  - destruct t as [|t]; simpl in *.
    + injection Hlook as ->. destruct (queued g), (queued g'); simpl; lia.
    + specialize (IH t Hlook). destruct (queued x); simpl; lia.
Qed.

Lemma count_queued_pos ts t g :
  ts !! t = Some g -> queued g = true -> (1 <= count_queued ts)%nat.
Proof.
  unfold count_queued. revert t. induction ts as [|x ts IH]; intros t Hlook Hq.
  - discriminate.
  - destruct t as [|t]; simpl in *.
    + injection Hlook as ->. rewrite Hq. simpl. lia.
    + specialize (IH t Hlook Hq). destruct (queued x); simpl; lia.
Qed.

Lemma queue_step fl i b g b' g' e :
  queue_limited fl ->
  (queued g = true -> 1 <= length (buf (pendingOutgoing b)))%nat ->
  step fl i b g = Some (b', g', e) ->
  (length (buf (pendingOutgoing b')) + Nat.b2n (queued g)
   = length (buf (pendingOutgoing b)) + Nat.b2n (queued g'))%nat.
Proof.
  intros Hflag Hown Hstep. destruct g as [p c]. unfold UnaryInterceptorClient in Hstep.
  destruct p; simpl in Hstep.
  all: try (pose proof (dequeueRequest_length b (Hown eq_refl)) as Hlen;
            destruct (dequeueRequest b) as [bd removed]; injection Hstep as <- <- <-;
            unfold queued; simpl in *; lia).
  all: try (injection Hstep as <- <- <-; rewrite ?unblock_pending; reflexivity).
  all: try (destruct (recv_credits b) as [[v br]|] eqn:Hr;
            [apply recv_credits_Some in Hr as [_ Hr] | try discriminate];
            step_cases Hstep; injection Hstep as <- <- <-; rewrite ?Hr; reflexivity).
  all: try (match type of Hstep with
            | context [send_credits ?b0 ?v] =>
                destruct (send_credits b0 v) as [bs|] eqn:Hs; [|discriminate];
                apply send_credits_Some in Hs as [_ Hs]
            end;
            injection Hstep as <- <- <-; rewrite Hs; unfold queued; simpl;
            try destruct (0 <? _); reflexivity).
  - pose proof (queueRequest_length b) as Hlen.
    destruct (queueRequest b) as [bq added].
    unfold queue_limited in Hflag. rewrite Hflag in Hstep.
    destruct added; simpl in Hstep, Hlen; injection Hstep as <- <- <-;
      unfold queued; simpl; lia.
  - destruct (wake b) as [bw|] eqn:Hw; [|discriminate].
    apply wake_Some in Hw as (_ & Hw & _).
    step_cases Hstep; injection Hstep as <- <- <-; rewrite Hw; reflexivity.
Qed.

Lemma queue_accounted_step fl s ti :
  queue_limited fl ->
  queue_accounted s -> queue_accounted (sys_step fl s ti).
Proof.
  unfold queue_accounted. intros Hflag Hs. destruct ti as [t i]. unfold sys_step.
  destruct (threads s !! t) as [g|] eqn:Hg; [|assumption].
  destruct (step fl i (shared s) g) as [[[b' g'] e]|] eqn:Hstep; [|assumption].
  simpl. pose proof (count_queued_insert _ _ _ g' Hg) as Hcount.
  assert (queued g = true -> 1 <= length (buf (pendingOutgoing (shared s))))%nat as Hown.
  { intros Hq. rewrite Hs. eapply count_queued_pos; eassumption. }
  pose proof (queue_step _ _ _ _ _ _ _ Hflag Hown Hstep). lia.
Qed.

Lemma queue_accounted_run fl sched s :
  queue_limited fl ->
  queue_accounted s -> queue_accounted (sys_run fl sched s).
Proof.
  intros Hflag. apply sys_run_inv. intros. apply queue_accounted_step; assumption.
Qed.

Lemma queue_accounted_counted fl s t g :
  (queue_limited fl -> queue_accounted s) ->
  threads s !! t = Some g -> queued g = true ->
  counted fl (shared s).
Proof.
  intros Hacc Hg Hq Hflag. specialize (Hacc Hflag).
  unfold queue_accounted in Hacc. unfold getDemand, Channel.len. rewrite Hacc.
  pose proof (count_queued_pos _ _ _ Hg Hq). lia.
Qed.

(** ** Initial states *)

Lemma initial_typed s : initial s -> typed_system s.
Proof.
  intros (_ & Hty & Hts). split; [assumption|].
  eapply Forall_impl; [exact Hts|]. intros g Hg. unfold holds_typed. rewrite Hg.
  exact I.
Qed.

Lemma initial_accounted s : initial s -> queue_accounted s.
Proof.
  intros (Hq & _ & Hts). unfold queue_accounted, count_queued. rewrite Hq.
  induction Hts as [|g ts Hg Hts IH]; [reflexivity|].
  simpl. unfold queued at 1. rewrite Hg. exact IH.
Qed.

(** ** The gate invariant along a schedule *)

Lemma callers_inv_step fl s0 s log ti :
  int64_credits (shared s) ->
  (queue_limited fl -> queue_accounted s) ->
  callers_inv fl s0 s log ->
  callers_inv fl s0 (sys_step fl s ti) (log ++ step_log fl s ti).
Proof.
  intros Hty Hacc Hinv t ctx0 Hstart.
  destruct (Hinv t ctx0 Hstart) as (g & Hg & Hgate).
  destruct ti as [u i]. unfold sys_step, step_log.
  destruct (threads s !! u) as [gu|] eqn:Hu.
  2: { rewrite app_nil_r. eauto. }
  destruct (step fl i (shared s) gu) as [[[b' gu'] e]|] eqn:Hstep.
  2: { rewrite app_nil_r. eauto. }
  rewrite history_app. simpl. destruct (Nat.eq_dec u t) as [->|Hne].
  - rewrite Hg in Hu. injection Hu as <-.
    exists gu'. split.
    + apply list_lookup_insert_eq. eapply lookup_lt_Some. eassumption.
    + rewrite history_own. eapply gate_inv_step; try eassumption.
      intros Hq. eapply queue_accounted_counted; eassumption.
  - exists g. split.
    + rewrite list_lookup_insert_ne by assumption. assumption.
    + rewrite history_other by assumption. rewrite app_nil_r. assumption.
Qed.

Lemma callers_inv_run fl sched s0 :
  initial s0 ->
  callers_inv fl s0 (sys_run fl sched s0) (sys_log fl sched s0).
Proof.
  intros Hinit. induction sched as [|ti sched IH] using rev_ind.
  - intros t ctx0 Hstart. exists (start ctx0). split; [assumption|].
    apply gate_inv_start.
  - rewrite sys_run_snoc, sys_log_snoc. apply callers_inv_step; [| |assumption].
    + apply typed_run, initial_typed, Hinit.
    + intros Hflag. apply queue_accounted_run; [assumption|].
      apply initial_accounted, Hinit.
Qed.

(** * The claims *)

(** ** The gate admits on a positive balance *)

(** C1: whenever a goroutine that entered the interceptor is about to make
    the transport call, its steps so far were, in this order: the enqueue;
    any number of turns of the loop, each a wake-up, the read of a balance
    that was not positive and the write of 0; then a wake-up, the read of a
    balance [v > 0] and the write of [v - 1]; the signal to the next waiter
    if [v - 1 > 0]; the demand sample and the dequeue. The admitting read
    took [v] from the head of the buffer of [outgoingCredits] and the write
    after it added [v - 1] at its end, so a channel that held [v] alone and
    was left alone in between holds [v - 1] alone. Every other read and
    write of the run acted on the buffer in the same way, and no other
    step of the goroutine changed it. This holds whatever the other
    goroutines do to the instance between its steps. *)
Theorem gate_decrements_once
    (fl : Flags) (ctx0 : outgoing) (env : list (Breakwater * input))
    (g : goroutine) (tr : list obs)
    (b : Breakwater) (i : input) (b' : Breakwater) (g' : goroutine) (md : outgoing) :
  typed_env env ->
  run_thread fl env (start ctx0) = Some (g, tr) ->
  step fl i b g = Some (b', g', EvInvoke md) ->
  Forall counter_effect tr /\
  exists added zs v d removed turns read write rest,
    Forall (fun u => u <= 0) zs /\ 0 < v /\
    tr = turns ++ [read; write] ++ rest /\
    map act turns = EvQueue added :: loops zs ++ [EvWake] /\
    act read = EvRecvCredits v /\
    act write = EvSendCredits (v - 1) /\
    map act rest = cascade (v - 1) ++ [EvDemand d; EvDequeue removed] /\
    buf (outgoingCredits (before read)) = v :: buf (outgoingCredits (after read)) /\
    buf (outgoingCredits (after write))
      = buf (outgoingCredits (before write)) ++ [v - 1] /\
    (buf (outgoingCredits (before read)) = [v] ->
     buf (outgoingCredits (before write)) = buf (outgoingCredits (after read)) ->
     buf (outgoingCredits (after write)) = [v - 1]).
Proof.
  intros Hty Hrun Hstep.
  pose proof (run_thread_counter _ _ _ _ _ Hrun) as Heff.
  split; [assumption|].
  apply invoke_at_L134 in Hstep as [Hpc _].
  pose proof (gate_inv_run _ _ _ _ _ Hty Hrun) as Hinv.
  unfold gate_inv in Hinv. rewrite Hpc in Hinv.
  destruct Hinv as (pre & bd & bq & -> & Hadm & _).
  destruct Hadm as (v & Hv & added & zs & _ & Hzs & Hevs).
  change (EvQueue added :: loops zs
          ++ [EvWake; EvRecvCredits v; EvSendCredits (v - 1)] ++ cascade (v - 1))
    with ((EvQueue added :: loops zs)
          ++ [EvWake] ++ [EvRecvCredits v; EvSendCredits (v - 1)] ++ cascade (v - 1))
    in Hevs.
  rewrite app_assoc in Hevs.
  apply List.map_eq_app in Hevs as (turns & after_wake & -> & Hturns & Hafter).
  destruct after_wake as [|read [|write rest]]; try discriminate Hafter.
  simpl in Hafter. injection Hafter as Hread Hwrite Hrest.
  apply Forall_app in Heff as [Heff _].
  apply Forall_app in Heff as [_ Heff].
  apply Forall_cons in Heff as [Heff_read Heff].
  apply Forall_cons in Heff as [Heff_write _].
  unfold counter_effect in Heff_read, Heff_write.
  rewrite Hread in Heff_read. rewrite Hwrite in Heff_write.
  exists added, zs, v, (getDemand bd), (dequeueRequest bq).2, turns, read, write,
    (rest ++ [sampled bd; dequeued bq]).
  repeat split; try assumption.
  - rewrite <- !app_assoc. reflexivity.
  - rewrite map_app, Hrest. reflexivity.
  - intros Hone Hsame. rewrite Heff_write, Hsame.
    rewrite Hone in Heff_read. injection Heff_read as <-. reflexivity.
Qed.

Lemma typed_looping_env : typed_env looping_env.
Proof.
  unfold typed_env, looping_env, int64_credits; simpl.
  repeat constructor; vm_compute; discriminate.
Qed.

Lemma gate_decrements_once_witness :
  Forall counter_effect looping_trace /\
  exists added zs v d removed turns read write rest,
    Forall (fun u => u <= 0) zs /\ 0 < v /\
    looping_trace = turns ++ [read; write] ++ rest /\
    map act turns = EvQueue added :: loops zs ++ [EvWake] /\
    act read = EvRecvCredits v /\
    act write = EvSendCredits (v - 1) /\
    map act rest = cascade (v - 1) ++ [EvDemand d; EvDequeue removed] /\
    buf (outgoingCredits (before read)) = v :: buf (outgoingCredits (after read)) /\
    buf (outgoingCredits (after write))
      = buf (outgoingCredits (before write)) ++ [v - 1] /\
    (buf (outgoingCredits (before read)) = [v] ->
     buf (outgoingCredits (before write)) = buf (outgoingCredits (after read)) ->
     buf (outgoingCredits (after write)) = [v - 1]).
Proof.
  eapply (gate_decrements_once all_on [] looping_env _ looping_trace looping_last
            (silent 5)).
  - exact typed_looping_env.
  - vm_compute. reflexivity.
  - vm_compute. reflexivity.
Defined.

(** The run of the witness takes one turn of the loop on a balance of 0
    before it is admitted on a balance of 3, and leaves 2. *)
Example looping_trace_events :
  map act looping_trace =
    EvQueue true :: loops [0]
      ++ [EvWake; EvRecvCredits 3; EvSendCredits 2; EvUnblock;
          EvDemand 1; EvDequeue true] /\
  buf (outgoingCredits looping_last) = [2].
Proof. split; reflexivity. Qed.

(** A balance that is not positive sends the caller back to wait: it puts
    back 0 and its next step is again the receive from [noCreditBlocker]. *)
Lemma no_credit_waits_again fl c i1 b1 b1' g1 v i2 b2 b2' :
  step fl i1 b1 (Go L99 c) = Some (b1', g1, EvRecvCredits v) ->
  v <= 0 ->
  send_credits b2 0 = Some b2' ->
  step fl i2 b2 g1 = Some (b2', Go L80 c, EvSendCredits 0).
Proof.
  unfold UnaryInterceptorClient. simpl. intros Hread Hv Hsend.
  destruct (recv_credits b1) as [[v1 br]|]; [|discriminate].
  destruct (Z.ltb_spec 0 v1); injection Hread as <- <- <-; [lia|].
  simpl. rewrite Hsend. reflexivity.
Qed.

(** ** A full queue drops the request *)

(** C3: with the queue-length switch on, a call that finds
    [pendingOutgoing] full returns at its first step with a
    [ResourceExhausted] status naming the client; the instance, and with it
    [outgoingCredits], is left exactly as it was, and the goroutine takes no
    further step, so it never calls the transport. *)
Theorem full_queue_drops
    (fl : Flags) (b : Breakwater) (i : input) (ctx0 : outgoing) :
  queue_limited fl ->
  Channel.full (pendingOutgoing b) ->
  step fl i b (start ctx0) =
    Some (b, Go (Ret (Some (queue_too_long b))) ctx0, EvQueue false) /\
  code (queue_too_long b) = ResourceExhausted /\
  forall (i' : input) (b'' : Breakwater),
    step fl i' b'' (Go (Ret (Some (queue_too_long b))) ctx0) = None.
Proof.
  unfold queue_limited. intros Hflag Hfull.
  unfold UnaryInterceptorClient, start, queueRequest. simpl.
  rewrite (chan_send_full _ 1 Hfull), Hflag. simpl. auto.
Qed.

Lemma full_queue_drops_witness :
  let b := mkBreakwater (Chan [1; 1] 2) (Chan [1] 1) (Chan [3] 1) 1000 "c1" in
  step all_on (silent 5) b (start []) =
    Some (b, Go (Ret (Some (queue_too_long b))) [], EvQueue false) /\
  code (queue_too_long b) = ResourceExhausted /\
  forall (i' : input) (b'' : Breakwater),
    step all_on i' b'' (Go (Ret (Some (queue_too_long b))) []) = None.
Proof.
  intros b. apply (full_queue_drops all_on b (silent 5) []).
  - reflexivity.
  - unfold Channel.full. simpl. lia.
Defined.

(** With the switch off the same call is not dropped: it goes on to wait
    for a wake-up without an entry of its own in the queue. *)
Lemma full_queue_ignored (fl : Flags) (b : Breakwater) (i : input) (ctx0 : outgoing) :
  useClientQueueLength fl = false ->
  Channel.full (pendingOutgoing b) ->
  step fl i b (start ctx0) = Some (b, Go L80 ctx0, EvQueue false).
Proof.
  intros Hflag Hfull. unfold UnaryInterceptorClient, start, queueRequest. simpl.
  rewrite (chan_send_full _ 1 Hfull), Hflag. reflexivity.
Qed.

(** ** An expired waiter leaves *)



(** ** The demand is sampled before the dequeue *)

(** The order of the last steps before the call and the metadata of the
    call, for one goroutine under arbitrary interference. *)
Lemma call_metadata fl ctx0 env g tr b i b' g' md :
  typed_env env ->
  run_thread fl env (start ctx0) = Some (g, tr) ->
  step fl i b g = Some (b', g', EvInvoke md) ->
  exists pre bd bq,
    tr = pre ++ [sampled bd; dequeued bq] /\ admitted fl pre /\
    md = demand_md ctx0 bd.
Proof.
  intros Hty Hrun Hstep.
  apply invoke_at_L134 in Hstep as [Hpc ->].
  pose proof (gate_inv_run _ _ _ _ _ Hty Hrun) as Hinv.
  unfold gate_inv in Hinv. rewrite Hpc in Hinv.
  destruct Hinv as (pre & bd & bq & -> & Hadm & Hctx & _).
  exists pre, bd, bq. auto.
Qed.

(** C5: callers enter the interceptor on an instance with an empty queue
    and run under any schedule. Whenever one of them makes the transport
    call, its last two steps before the call were the sample of the demand
    and then its dequeue, and all its steps before those end in its
    admission. The sample left the instance as it was and its value is the
    number of entries in the buffer of [pendingOutgoing] at that moment;
    the metadata of the call is the caller's followed by [demand], the
    decimal text of that number, and [id]. The dequeue took the oldest
    entry out of the buffer, if there was one, and left the other two
    channels alone. With the queue-length switch on, the sampled buffer
    held at least one entry, so the caller, not yet dequeued, is counted,
    and the dequeue did remove an entry. *)
Theorem demand_sampled_before_dequeue
    (fl : Flags) (s0 : system) (sched : list (nat * input))
    (t : nat) (ctx0 : outgoing) (g : goroutine)
    (i : input) (b' : Breakwater) (g' : goroutine) (md : outgoing) :
  initial s0 ->
  threads s0 !! t = Some (start ctx0) ->
  threads (sys_run fl sched s0) !! t = Some g ->
  step fl i (shared (sys_run fl sched s0)) g = Some (b', g', EvInvoke md) ->
  exists pre bd d bq removed bq',
    history t (sys_log fl sched s0) =
      pre ++ [Obs bd (EvDemand d) bd; Obs bq (EvDequeue removed) bq'] /\
    admitted fl pre /\
    d = Z.of_nat (length (buf (pendingOutgoing bd))) /\
    md = ctx0 ++ [("demand", Strconv.Itoa d); ("id", id bd)] /\
    buf (pendingOutgoing bq') = tail (buf (pendingOutgoing bq)) /\
    (removed = true <-> buf (pendingOutgoing bq) <> []) /\
    noCreditBlocker bq' = noCreditBlocker bq /\
    outgoingCredits bq' = outgoingCredits bq /\
    (queue_limited fl ->
     (1 <= length (buf (pendingOutgoing bd)))%nat /\ removed = true).
Proof.
  intros Hinit Hstart Hg Hstep.
  apply invoke_at_L134 in Hstep as [Hpc ->].
  destruct (callers_inv_run fl sched s0 Hinit t ctx0 Hstart) as (g1 & Hg1 & Hinv).
  rewrite Hg in Hg1. injection Hg1 as <-.
  unfold gate_inv in Hinv. rewrite Hpc in Hinv.
  destruct Hinv as (pre & bd & bq & Hhist & Hadm & Hctx & Hbd & Hbq).
  destruct (dequeueRequest_shape bq) as (Htail & Hremoved & Hsignal & Hcredits).
  exists pre, bd, (Z.of_nat (length (buf (pendingOutgoing bd)))), bq,
    (dequeueRequest bq).2, (dequeueRequest bq).1.
  split; [exact Hhist|]. split; [exact Hadm|]. split; [reflexivity|].
  split; [exact Hctx|]. split; [exact Htail|]. split; [exact Hremoved|].
  split; [exact Hsignal|]. split; [exact Hcredits|].
  intros Hflag. specialize (Hbd Hflag). specialize (Hbq Hflag).
  unfold getDemand, Channel.len in Hbd, Hbq. split; [lia|].
  apply Hremoved. destruct (buf (pendingOutgoing bq)); [simpl in Hbq; lia | discriminate].
Qed.

Lemma initial_two_callers : initial two_callers.
Proof.
  repeat split.
  - repeat constructor; vm_compute; discriminate.
  - repeat constructor.
Qed.

Lemma demand_sampled_before_dequeue_witness :
  exists pre bd d bq removed bq',
    history 0 (sys_log all_on crowded_schedule two_callers) =
      pre ++ [Obs bd (EvDemand d) bd; Obs bq (EvDequeue removed) bq'] /\
    admitted all_on pre /\
    d = Z.of_nat (length (buf (pendingOutgoing bd))) /\
    [("demand", "2"); ("id", "c1")] =
      [] ++ [("demand", Strconv.Itoa d); ("id", id bd)] /\
    buf (pendingOutgoing bq') = tail (buf (pendingOutgoing bq)) /\
    (removed = true <-> buf (pendingOutgoing bq) <> []) /\
    noCreditBlocker bq' = noCreditBlocker bq /\
    outgoingCredits bq' = outgoingCredits bq /\
    (queue_limited all_on ->
     (1 <= length (buf (pendingOutgoing bd)))%nat /\ removed = true).
Proof.
  eapply (demand_sampled_before_dequeue all_on two_callers crowded_schedule
            0%nat [] _ (silent 5)).
  - exact initial_two_callers.
  - reflexivity.
  - vm_compute. reflexivity.
  - vm_compute. reflexivity.
Defined.

(** In the run of the witness two callers are queued when the first one
    samples: it reports a demand of 2 and its dequeue leaves one entry. *)
Example crowded_demand :
  let s := sys_run all_on crowded_schedule two_callers in
  (ctx <$> threads s) !! 0%nat = Some [("demand", "2"); ("id", "c1")] /\
  buf (pendingOutgoing (shared s)) = [1].
Proof. vm_compute. split; reflexivity. Qed.

(** With the switch off, a caller that was not queued takes another
    caller's entry, and that caller then reports a demand of zero. *)
Example uncounted_demand :
  let fl := mkFlags false true true in
  let s0 := Sys (instance 1 2 1000 "c1") [start []; start []] in
  let s := sys_run fl (replicate 5 (0%nat, silent 5) ++ replicate 6 (1%nat, silent 5)
                       ++ [(0%nat, silent 5)]) s0 in
  (ctx <$> threads s) !! 0%nat = Some [("demand", "0"); ("id", "c1")].
Proof. vm_compute. reflexivity. Qed.

(** ** The balance after a failed call *)

(** C2, at the failing input: with [creditsOnFail] on, the balance the
    second caller's reply stored is [math.MaxInt64]; the failed first call
    reads it and writes back [credit + 1], which wraps around, so the
    counter ends up holding the least [int64] when both calls have
    returned. *)
Theorem refund_wraps_around :
  let s := sys_run all_on refund_schedule two_callers in
  buf (outgoingCredits (shared s)) = [Int64.min_int] /\
  Int64.min_int < 0 /\
  at_pc <$> threads s =
    [Ret (Some (Errorf Unavailable "transport is closing")); Ret None].
Proof. vm_compute. repeat split; reflexivity. Qed.

(** X12: a balance written right after a read of a non-negative [int64]
    is non-negative on every path but one: the refund of a failed call,
    when the balance read is the largest [int64]. *)
Lemma write_after_read fl i1 b1 g b1' g1 v i2 b2 b2' g2 w :
  step fl i1 b1 g = Some (b1', g1, EvRecvCredits v) ->
  Int64.in_range v -> 0 <= v ->
  step fl i2 b2 g1 = Some (b2', g2, EvSendCredits w) ->
  0 <= w \/
  (v = Int64.max_int /\ w = Int64.min_int /\ exists err, at_pc g = L139 err).
Proof.
  intros Hread Hrange Hv Hwrite. destruct g as [p c]. unfold UnaryInterceptorClient in Hread.
  destruct p; simpl in Hread; step_cases Hread; try discriminate Hread;
    injection Hread as <- <- <-; unfold UnaryInterceptorClient in Hwrite; simpl in Hwrite;
    step_cases Hwrite; injection Hwrite as <- <- <-.
  all: reflect_tests.
  - left. lia.
  - left. rewrite int64_sub_one_pos; [lia | assumption | assumption].
  - left. lia.
  - match goal with
    | |- context [Int64.add ?v 1] => destruct (Z.eq_dec v Int64.max_int) as [->|Hne]
    end.
    + right. repeat split; eauto.
    + left. rewrite int64_add_one_small; [lia | assumption |].
      unfold Int64.in_range in Hrange. lia.
  - left. lia.
  - left. lia.
Qed.

Lemma nonneg_credits_same b b' :
  outgoingCredits b' = outgoingCredits b -> nonneg_credits b -> nonneg_credits b'.
Proof. unfold nonneg_credits. intros ->. auto. Qed.

Lemma nonneg_recv b v b' :
  recv_credits b = Some (v, b') -> nonneg_credits b ->
  0 <= v <= Int64.max_int /\ nonneg_credits b'.
Proof.
  unfold nonneg_credits. intros Hrecv Hb.
  apply recv_credits_Some in Hrecv as [Hbuf _]. rewrite Hbuf in Hb.
  apply Forall_cons in Hb. assumption.
Qed.

Lemma nonneg_send b v b' :
  send_credits b v = Some b' -> nonneg_credits b -> 0 <= v <= Int64.max_int ->
  nonneg_credits b'.
Proof.
  unfold nonneg_credits. intros Hsend Hb Hv.
  apply send_credits_Some in Hsend as [-> _].
  apply Forall_app. split; [assumption|]. constructor; [assumption | constructor].
Qed.

Lemma nonneg_step fl i b g b' g' e :
  creditsOnFail fl = false ->
  step fl i b g = Some (b', g', e) ->
  nonneg_credits b -> holds_nonneg g ->
  nonneg_credits b' /\ holds_nonneg g'.
Proof.
  intros Hflag Hstep Hb Hg.
  pose proof (step_credit_effect _ _ _ _ _ _ _ Hstep) as Heff.
  destruct g as [p c]. unfold UnaryInterceptorClient in Hstep. unfold holds_nonneg in *.
  unfold credit_effect in Heff.
  destruct p; simpl in Hstep, Hg; try contradiction; step_cases Hstep;
    injection Hstep as <- <- <-; simpl in Heff |- *;
    try (split; [eapply nonneg_credits_same; eassumption | try exact I]);
    try (destruct (nonneg_recv _ _ _ Heff Hb) as [Hv Hb']; split; [assumption|]);
    try (split; [eapply nonneg_send; try eassumption|]); try exact I;
    try lia; try congruence.
  all: reflect_tests.
  - unfold Int64.max_int in *. unfold Int64.sub.
    rewrite int64_wrap_id; [lia|].
    unfold Int64.in_range, Int64.min_int, Int64.max_int. lia.
  - unfold Int64.max_int. lia.
  - match goal with
    | |- Strconv.ParseInt ?s <= _ => pose proof (ParseInt_in_range s) as Hr
    end.
    unfold Int64.in_range in Hr. lia.
  - unfold Int64.max_int in *. lia.
  - unfold Int64.max_int in *. lia.
Qed.

Lemma nonneg_sys_step fl s ti :
  creditsOnFail fl = false -> nonneg_system s -> nonneg_system (sys_step fl s ti).
Proof.
  intros Hflag [Hb Hts]. destruct ti as [t i]. unfold sys_step.
  destruct (threads s !! t) as [g|] eqn:Hg; [|split; assumption].
  destruct (step fl i (shared s) g) as [[[b' g'] e]|] eqn:Hstep; [|split; assumption].
  assert (holds_nonneg g) as Hhold by (eapply Forall_lookup_1; eassumption).
  destruct (nonneg_step _ _ _ _ _ _ _ Hflag Hstep Hb Hhold) as [Hb' Hg'].
  split; simpl; [assumption|]. apply Forall_insert; assumption.
Qed.

(** X22: with [creditsOnFail] off, no schedule of any number of callers
    makes the counter negative or takes it out of [int64]. *)
Lemma credits_nonneg_without_refund fl sched s :
  creditsOnFail fl = false -> nonneg_system s -> nonneg_system (sys_run fl sched s).
Proof.
  intros Hflag. apply sys_run_inv. intros. apply nonneg_sys_step; assumption.
Qed.

(** * Further properties of the interceptor *)

(** ** The configuration and the capacities *)

Lemma chan_recv_shape c v c' :
  Channel.recv c = Some (v, c') -> buf c = v :: buf c' /\ cap c' = cap c.
Proof.
  unfold Channel.recv. destruct (buf c) as [|x rest] eqn:E; [discriminate|].
  intros [= <- <-]. auto.
Qed.

Lemma chan_send_shape c v c' :
  Channel.send c v = Some c' ->
  buf c' = buf c ++ [v] /\ cap c' = cap c /\ (length (buf c) < cap c)%nat.
Proof.
  unfold Channel.send.
  destruct (Nat.ltb_spec (length (buf c)) (cap c)); [|discriminate].
  intros [= <-]. auto.
Qed.

Lemma chan_recv_within c v c' : Channel.recv c = Some (v, c') -> within c -> within c'.
Proof.
  unfold within. intros Hrecv Hc. apply chan_recv_shape in Hrecv as [Hbuf Hcap].
  rewrite Hbuf in Hc. simpl in Hc. lia.
Qed.

Lemma chan_send_within c v c' : Channel.send c v = Some c' -> within c'.
Proof.
  unfold within. intros Hsend. apply chan_send_shape in Hsend as (Hbuf & Hcap & Hroom).
  rewrite Hbuf, Hcap, length_app. simpl. lia.
Qed.

Lemma same_config_refl b : same_config b b.
Proof. repeat split. Qed.

Lemma same_config_trans b1 b2 b3 :
  same_config b1 b2 -> same_config b2 b3 -> same_config b1 b3.
Proof.
  unfold same_config. intros (H1 & H2 & H3 & H4 & H5) (K1 & K2 & K3 & K4 & K5).
  repeat split; congruence.
Qed.

(** What each helper does to the configuration and the capacities. *)
Lemma queueRequest_kept b :
  same_config b (queueRequest b).1 /\
  (within_capacity b -> within_capacity (queueRequest b).1).
Proof.
  unfold queueRequest. destruct (Channel.send _ _) as [c|] eqn:Hsend; simpl.
  - pose proof (chan_send_within _ _ _ Hsend).
    apply chan_send_shape in Hsend as (_ & Hcap & _).
    split; [repeat split; assumption|]. intros (_ & ? & ?). repeat split; assumption.
  - split; [apply same_config_refl | auto].
Qed.

Lemma dequeueRequest_kept b :
  same_config b (dequeueRequest b).1 /\
  (within_capacity b -> within_capacity (dequeueRequest b).1).
Proof.
  unfold dequeueRequest. destruct (Channel.recv _) as [[v c]|] eqn:Hrecv; simpl.
  - pose proof (chan_recv_within _ _ _ Hrecv) as Hin.
    apply chan_recv_shape in Hrecv as (_ & Hcap).
    split; [repeat split; assumption|]. intros (? & ? & ?). repeat split; auto.
  - split; [apply same_config_refl | auto].
Qed.

Lemma unblock_kept b :
  same_config b (unblockNoCreditBlock b) /\
  (within_capacity b -> within_capacity (unblockNoCreditBlock b)).
Proof.
  unfold unblockNoCreditBlock. destruct (Channel.send _ _) as [c|] eqn:Hsend; simpl.
  - pose proof (chan_send_within _ _ _ Hsend).
    apply chan_send_shape in Hsend as (_ & Hcap & _).
    split; [repeat split; assumption|]. intros (? & _ & ?). repeat split; assumption.
  - split; [apply same_config_refl | auto].
Qed.

Lemma wake_kept b b' :
  wake b = Some b' ->
  same_config b b' /\ (within_capacity b -> within_capacity b').
Proof.
  unfold wake. destruct (Channel.recv _) as [[v c]|] eqn:Hrecv; [|discriminate].
  intros [= <-]. pose proof (chan_recv_within _ _ _ Hrecv) as Hin.
  apply chan_recv_shape in Hrecv as (_ & Hcap).
  split; [repeat split; assumption|]. intros (? & ? & ?). repeat split; auto.
Qed.

Lemma recv_credits_kept b v b' :
  recv_credits b = Some (v, b') ->
  same_config b b' /\ (within_capacity b -> within_capacity b').
Proof.
  unfold recv_credits. destruct (Channel.recv _) as [[x c]|] eqn:Hrecv; [|discriminate].
  intros [= <- <-]. pose proof (chan_recv_within _ _ _ Hrecv) as Hin.
  apply chan_recv_shape in Hrecv as (_ & Hcap).
  split; [repeat split; assumption|]. intros (? & ? & ?). repeat split; auto.
Qed.

Lemma send_credits_kept b v b' :
  send_credits b v = Some b' ->
  same_config b b' /\ (within_capacity b -> within_capacity b').
Proof.
  unfold send_credits. destruct (Channel.send _ _) as [c|] eqn:Hsend; [|discriminate].
  intros [= <-]. pose proof (chan_send_within _ _ _ Hsend).
  apply chan_send_shape in Hsend as (_ & Hcap & _).
  split; [repeat split; assumption|]. intros (? & ? & _). repeat split; assumption.
Qed.

Lemma step_kept fl i b g b' g' e :
  step fl i b g = Some (b', g', e) ->
  same_config b b' /\ (within_capacity b -> within_capacity b').
Proof.
  intros Hstep. destruct g as [p c]. unfold UnaryInterceptorClient in Hstep.
  destruct p; simpl in Hstep.
  all: try (pose proof (queueRequest_kept b) as Hk;
            destruct (queueRequest b) as [bq added]; simpl in Hk;
            step_cases Hstep; injection Hstep as <- <- <-; exact Hk).
  all: try (pose proof (dequeueRequest_kept b) as Hk;
            destruct (dequeueRequest b) as [bd removed]; simpl in Hk;
            injection Hstep as <- <- <-; exact Hk).
  all: try (injection Hstep as <- <- <-; apply unblock_kept).
  all: try (injection Hstep as <- <- <-; split; [apply same_config_refl | auto]).
  all: try (destruct (wake b) as [bw|] eqn:Hw; [|discriminate];
            apply wake_kept in Hw; step_cases Hstep; injection Hstep as <- <- <-;
            exact Hw).
  all: try (destruct (recv_credits b) as [[v br]|] eqn:Hr;
            [apply recv_credits_kept in Hr | try discriminate];
            step_cases Hstep; injection Hstep as <- <- <-;
            first [exact Hr | split; [apply same_config_refl | auto]]).
  all: match type of Hstep with
       | context [send_credits ?b0 ?v] =>
           destruct (send_credits b0 v) as [bs|] eqn:Hs; [|discriminate];
           apply send_credits_kept in Hs; injection Hstep as <- <- <-; exact Hs
       end.
Qed.

(** X1: whatever the callers and the schedule, the interceptor leaves the
    capacities of the three channels, [clientExpiration] and [id] as they
    were. *)
Theorem instance_config_kept (fl : Flags) (sched : list (nat * input)) (s : system) :
  same_config (shared s) (shared (sys_run fl sched s)).
Proof.
  apply (sys_run_inv (fun s' => same_config (shared s) (shared s')));
    [|apply same_config_refl].
  intros s' [t i] Hs'. unfold sys_step.
  destruct (threads s' !! t) as [g|]; [|assumption].
  destruct (step fl i (shared s') g) as [[[b' g'] e]|] eqn:Hstep; [|assumption].
  simpl. eapply same_config_trans; [eassumption|].
  eapply step_kept; eassumption.
Qed.

(** X2: if no channel holds more than its capacity, this stays so under
    every schedule, and the demand a caller can sample lies between 0 and
    the capacity the queue was made with. *)
Theorem channels_within_capacity
    (fl : Flags) (sched : list (nat * input)) (s : system) :
  within_capacity (shared s) ->
  within_capacity (shared (sys_run fl sched s)) /\
  0 <= getDemand (shared (sys_run fl sched s))
    <= Z.of_nat (cap (pendingOutgoing (shared s))).
Proof.
  intros Hs.
  assert (within_capacity (shared (sys_run fl sched s))) as Hrun.
  { apply (sys_run_inv (fun s' => within_capacity (shared s'))); [|assumption].
    intros s' [t i] Hs'. unfold sys_step.
    destruct (threads s' !! t) as [g|]; [|assumption].
    destruct (step fl i (shared s') g) as [[[b' g'] e]|] eqn:Hstep; [|assumption].
    simpl. eapply step_kept; eassumption. }
  split; [assumption|].
  destruct (instance_config_kept fl sched s) as (Hcap & _).
  destruct Hrun as (Hq & _). unfold within in Hq.
  unfold getDemand, Channel.len. lia.
Qed.

Lemma channels_within_capacity_witness :
  within_capacity (shared (sys_run all_on refund_schedule two_callers)) /\
  0 <= getDemand (shared (sys_run all_on refund_schedule two_callers))
    <= Z.of_nat (cap (pendingOutgoing (shared two_callers))).
Proof.
  apply (channels_within_capacity all_on refund_schedule two_callers).
  repeat split; unfold within; simpl; lia.
Defined.

(** ** The balance is a token *)

Lemma count_holding_insert ts t g g' :
  ts !! t = Some g ->
  (count_holding (<[t := g']> ts) + Nat.b2n (holding g)
   = count_holding ts + Nat.b2n (holding g'))%nat.
Proof.
  unfold count_holding. revert t. induction ts as [|x ts IH]; intros t Hlook.
  - discriminate.
  - destruct t as [|t]; simpl in *.
    + injection Hlook as ->. destruct (holding g), (holding g'); simpl; lia.
    + specialize (IH t Hlook). destruct (holding x); simpl; lia.
Qed.

Lemma count_holding_two ts t u gt gu :
  t <> u -> ts !! t = Some gt -> ts !! u = Some gu ->
  holding gt = true -> holding gu = true -> (2 <= count_holding ts)%nat.
Proof.
  unfold count_holding. revert t u.
  induction ts as [|x ts IH]; intros t u Hne Ht Hu Hgt Hgu; [discriminate|].
  destruct t as [|t], u as [|u]; simpl in *; try contradiction.
  - injection Ht as ->. rewrite Hgt. simpl.
    assert (1 <= length (List.filter holding ts))%nat; [|lia].
    clear -Hu Hgu. revert u Hu. induction ts as [|y ts IH]; intros u Hu; [discriminate|].
    destruct u as [|u]; simpl in *.
    + injection Hu as ->. rewrite Hgu. simpl. lia.
    + specialize (IH u Hu). destruct (holding y); simpl; lia.
  - injection Hu as ->. rewrite Hgu. simpl.
    assert (1 <= length (List.filter holding ts))%nat; [|lia].
    clear -Ht Hgt. revert t Ht. induction ts as [|y ts IH]; intros t Ht; [discriminate|].
    destruct t as [|t]; simpl in *.
    + injection Ht as ->. rewrite Hgt. simpl. lia.
    + specialize (IH t Ht). destruct (holding y); simpl; lia.
  - assert (t <> u) as Hne' by congruence.
    specialize (IH t u Hne' Ht Hu Hgt Hgu). destruct (holding x); simpl; lia.
Qed.

Lemma token_step fl i b g b' g' e :
  step fl i b g = Some (b', g', e) ->
  (length (buf (outgoingCredits b')) + Nat.b2n (holding g')
   = length (buf (outgoingCredits b)) + Nat.b2n (holding g))%nat.
Proof.
  intros Hstep.
  pose proof (step_credit_effect _ _ _ _ _ _ _ Hstep) as Heff.
  destruct g as [p c]. unfold UnaryInterceptorClient in Hstep.
  unfold credit_effect in Heff.
  destruct p; simpl in Hstep; step_cases Hstep; injection Hstep as <- <- <-;
    simpl in Heff; unfold holding; simpl.
  all: try reflexivity.
  all: try (rewrite Heff; reflexivity).
  all: try (apply recv_credits_Some in Heff as [Hbuf _]; rewrite Hbuf; simpl; lia).
  all: try (apply send_credits_Some in Heff as [Hbuf _]; rewrite Hbuf, length_app;
            simpl; lia).
Qed.

(** X3: the number of balances, in [outgoingCredits] or held by a
    goroutine between its receive and its send, never changes, whatever
    the callers and the schedule: no balance is duplicated or lost. *)
Theorem tokens_conserved (fl : Flags) (sched : list (nat * input)) (s : system) :
  tokens (sys_run fl sched s) = tokens s.
Proof.
  apply (sys_run_inv (fun s' => tokens s' = tokens s)); [|reflexivity].
  intros s' [t i] Hs'. unfold sys_step.
  destruct (threads s' !! t) as [g|] eqn:Hg; [|assumption].
  destruct (step fl i (shared s') g) as [[[b' g'] e]|] eqn:Hstep; [|assumption].
  rewrite <- Hs'. unfold tokens. simpl.
  pose proof (count_holding_insert _ _ _ g' Hg).
  pose proof (token_step _ _ _ _ _ _ _ Hstep). lia.
Qed.

(** X4: on an instance made with one balance in a channel of capacity at
    least one, a goroutine that holds the balance holds it alone: the
    channel is empty, no other goroutine is between its receive and its
    send, and the holder's send is never blocked. *)
Theorem holder_is_alone
    (fl : Flags) (sched : list (nat * input)) (s0 : system)
    (t : nat) (g : goroutine) :
  one_balance s0 ->
  threads (sys_run fl sched s0) !! t = Some g ->
  holding g = true ->
  buf (outgoingCredits (shared (sys_run fl sched s0))) = [] /\
  (forall u gu, u <> t -> threads (sys_run fl sched s0) !! u = Some gu ->
                holding gu = false) /\
  forall i, exists r, step fl i (shared (sys_run fl sched s0)) g = Some r.
Proof.
  intros (Hone & Hcap & Hnone) Hg Hhold.
  pose proof (tokens_conserved fl sched s0) as Htok.
  unfold tokens in Htok. rewrite Hone, Hnone in Htok.
  set (s := sys_run fl sched s0) in *.
  assert (1 <= count_holding (threads s))%nat as Hpos.
  { clear -Hg Hhold. unfold count_holding. revert t Hg.
    induction (threads s) as [|x ts IH]; intros t Hg; [discriminate|].
    destruct t as [|t]; simpl in *.
    - injection Hg as ->. rewrite Hhold. simpl. lia.
    - specialize (IH t Hg). destruct (holding x); simpl; lia. }
  assert (buf (outgoingCredits (shared s)) = []) as Hempty.
  { destruct (buf (outgoingCredits (shared s))); [reflexivity | simpl in Htok; lia]. }
  split; [assumption|]. split.
  - intros u gu Hne Hu. destruct (holding gu) eqn:Hgu; [|reflexivity].
    pose proof (count_holding_two _ _ _ _ _ Hne Hu Hg Hgu Hhold). lia.
  - intros i. destruct (instance_config_kept fl sched s0) as (_ & _ & Hcap' & _).
    fold s in Hcap'.
    assert (forall v, exists b', send_credits (shared s) v = Some b') as Hsend.
    { intros v. unfold send_credits, Channel.send. rewrite Hempty. simpl.
      destruct (Nat.ltb_spec 0 (cap (outgoingCredits (shared s)))); [eauto | lia]. }
    destruct g as [p c]. unfold holding in Hhold.
    unfold UnaryInterceptorClient.
    destruct p; simpl in Hhold |- *; try discriminate Hhold.
    all: match goal with
         | |- context [send_credits _ ?v] =>
             destruct (Hsend v) as [b' ->]; eauto
         end.
Qed.

Lemma holder_is_alone_witness :
  let s := sys_run all_on (replicate 3 (0%nat, silent 5)) two_callers in
  buf (outgoingCredits (shared s)) = [] /\
  (forall u gu, u <> 0%nat -> threads s !! u = Some gu -> holding gu = false) /\
  forall i, exists r, step all_on i (shared s) (Go (L104 1) []) = Some r.
Proof.
  apply (holder_is_alone all_on (replicate 3 (0%nat, silent 5)) two_callers 0%nat
           (Go (L104 1) [])).
  - repeat split; simpl; lia.
  - vm_compute. reflexivity.
  - reflexivity.
Defined.

(** ** A wait without a wake-up *)

Lemma stalled_step fl s ti : stalled s -> sys_step fl s ti = s.
Proof.
  intros [Hsignal Hts]. destruct ti as [t i]. unfold sys_step.
  destruct (threads s !! t) as [g|] eqn:Hg; [|reflexivity].
  pose proof (Forall_lookup_1 _ _ _ _ Hts Hg) as Hwait.
  destruct g as [p c]. unfold waiting_or_done in Hwait. unfold UnaryInterceptorClient.
  destruct p; simpl in Hwait |- *; try contradiction; [|reflexivity].
  unfold wake, Channel.recv. rewrite Hsignal. reflexivity.
Qed.

(** X5: when no wake-up is queued and every goroutine waits for one or has
    returned, no schedule changes anything, whatever the elapsed times it
    reports: the expiration is only examined after a wake-up, so the
    waiting calls never return. *)
Theorem stalled_forever (fl : Flags) (sched : list (nat * input)) (s : system) :
  stalled s -> sys_run fl sched s = s.
Proof.
  intros Hs. unfold sys_run. induction sched as [|ti sched IH]; [reflexivity|].
  simpl. rewrite stalled_step by assumption. exact IH.
Qed.

Lemma stalled_forever_witness :
  let s := Sys (mkBreakwater (Chan [1] 50) (Chan [] 1) (Chan [0] 1) 1000 "c1")
               [Go L80 []; Go (Ret None) []] in
  sys_run all_on [(0%nat, silent 5000000); (1%nat, silent 0)] s = s.
Proof.
  intros s. apply (stalled_forever all_on _ s).
  split; [reflexivity|]. repeat constructor.
Defined.

(** X6: a caller alone on an instance whose only balance is not positive
    takes the one wake-up there is in time, reads the balance, puts back 0
    and waits again; from then on nothing changes under any schedule, so
    the call never returns, however much time passes. *)
Theorem lone_caller_without_credit_waits_forever
    (fl : Flags) (b : Breakwater) (c : outgoing) (x v : Z)
    (i1 i2 i3 i4 : input) (sched : list (nat * input)) :
  ~ Channel.full (pendingOutgoing b) ->
  buf (noCreditBlocker b) = [x] ->
  buf (outgoingCredits b) = [v] ->
  v <= 0 ->
  (1 <= cap (outgoingCredits b))%nat ->
  Microseconds (elapsed i2) <= clientExpiration b ->
  sys_run fl ((0%nat, i1) :: (0%nat, i2) :: (0%nat, i3) :: (0%nat, i4) :: sched)
    (Sys b [start c])
  = Sys (mkBreakwater
           (Chan (buf (pendingOutgoing b) ++ [1]) (cap (pendingOutgoing b)))
           (Chan [] (cap (noCreditBlocker b)))
           (Chan [0] (cap (outgoingCredits b)))
           (clientExpiration b) (id b))
        [Go L80 c].
Proof.
  intros Hroom Hsignal Hbalance Hv Hcap Hintime.
  change ((0%nat, i1) :: (0%nat, i2) :: (0%nat, i3) :: (0%nat, i4) :: sched)
    with ([(0%nat, i1); (0%nat, i2); (0%nat, i3); (0%nat, i4)] ++ sched).
  unfold sys_run. rewrite fold_left_app.
  match goal with
  | |- fold_left _ sched ?s1 = ?s2 => assert (s1 = s2) as ->
  end.
  2: { apply (stalled_forever fl sched). split; [reflexivity|]. repeat constructor. }
  set (b1 := with_pendingOutgoing b
               (Chan (buf (pendingOutgoing b) ++ [1]) (cap (pendingOutgoing b)))).
  set (b2 := with_noCreditBlocker b1 (Chan [] (cap (noCreditBlocker b)))).
  set (b3 := with_outgoingCredits b2 (Chan [] (cap (outgoingCredits b)))).
  set (b4 := with_outgoingCredits b3 (Chan [0] (cap (outgoingCredits b)))).
  assert (step fl i1 b (start c) = Some (b1, Go L80 c, EvQueue true)) as H1.
  { unfold UnaryInterceptorClient, start, queueRequest, Channel.send.
    cbn [at_pc ctx]. unfold Channel.full in Hroom.
    destruct (Nat.ltb_spec (length (buf (pendingOutgoing b))) (cap (pendingOutgoing b)));
      [|lia].
    cbn [negb]. rewrite andb_false_r. reflexivity. }
  assert (step fl i2 b1 (Go L80 c) = Some (b2, Go L99 c, EvWake)) as H2.
  { unfold UnaryInterceptorClient, wake, Channel.recv. cbn [at_pc ctx].
    change (noCreditBlocker b1) with (noCreditBlocker b). rewrite Hsignal.
    change (clientExpiration (with_noCreditBlocker b1 (Chan [] (cap (noCreditBlocker b)))))
      with (clientExpiration b).
    destruct (Z.ltb_spec (clientExpiration b) (Microseconds (elapsed i2))); [lia|].
    rewrite andb_false_r. reflexivity. }
  assert (step fl i3 b2 (Go L99 c) = Some (b3, Go L115 c, EvRecvCredits v)) as H3.
  { unfold UnaryInterceptorClient, recv_credits, Channel.recv. cbn [at_pc ctx].
    change (outgoingCredits b2) with (outgoingCredits b). rewrite Hbalance.
    destruct (Z.ltb_spec 0 v); [lia | reflexivity]. }
  assert (step fl i4 b3 (Go L115 c) = Some (b4, Go L80 c, EvSendCredits 0)) as H4.
  { unfold UnaryInterceptorClient, send_credits, Channel.send. cbn [at_pc ctx].
    change (outgoingCredits b3) with (Chan [] (cap (outgoingCredits b))).
    cbn [buf cap length].
    destruct (Nat.ltb_spec 0 (cap (outgoingCredits b))); [reflexivity | lia]. }
  cbn [fold_left]. unfold sys_step at 4. cbn [threads shared lookup list_lookup].
  rewrite H1. unfold sys_step at 3. cbn [threads shared lookup list_lookup insert list_insert].
  rewrite H2. unfold sys_step at 2. cbn [threads shared lookup list_lookup insert list_insert].
  rewrite H3. unfold sys_step. cbn [threads shared lookup list_lookup insert list_insert].
  rewrite H4. reflexivity.
Qed.

Lemma lone_caller_without_credit_waits_forever_witness :
  sys_run all_on
    ((0%nat, silent 0) :: (0%nat, silent 1) :: (0%nat, silent 2) :: (0%nat, silent 3)
     :: [(0%nat, silent 5000000)])
    (Sys (instance 50 0 1000 "c1") [start []])
  = Sys (mkBreakwater (Chan [1] 50) (Chan [] 1) (Chan [0] 1) 1000 "c1") [Go L80 []].
Proof.
  apply (lone_caller_without_credit_waits_forever all_on (instance 50 0 1000 "c1")
           [] 1 0).
  - unfold Channel.full. simpl. lia.
  - reflexivity.
  - reflexivity.
  - lia.
  - simpl. lia.
  - vm_compute. discriminate.
Defined.

(** ** The outcome of a call *)

Lemma invokes_snoc tr o :
  invokes (tr ++ [o]) = invokes tr ++ (if is_invoke (act o) then [o] else []).
Proof. unfold invokes. rewrite List.filter_app. reflexivity. Qed.

Lemma invokes_snoc_other tr o :
  is_invoke (act o) = false -> invokes (tr ++ [o]) = invokes tr.
Proof. intros H. rewrite invokes_snoc, H. apply app_nil_r. Qed.

Lemma replied_snoc env tr r b i o :
  is_invoke (act o) = false ->
  transport_replied env tr r ->
  transport_replied (env ++ [(b, i)]) (tr ++ [o]) r.
Proof.
  intros Ho (k & bk & ik & md & Henv & Htr & Hr & Hone).
  exists k, bk, ik, md. repeat split; try assumption.
  - rewrite lookup_app_l; [assumption|]. eapply lookup_lt_Some. eassumption.
  - rewrite lookup_app_l; [assumption|]. eapply lookup_lt_Some. eassumption.
  - rewrite invokes_snoc_other; assumption.
Qed.

Lemma replied_now env tr b i md :
  length tr = length env ->
  invokes tr = [] ->
  transport_replied (env ++ [(b, i)]) (tr ++ [Obs b (EvInvoke md) b]) (reply_err i).
Proof.
  intros Hlen Hnone. exists (length tr), b, i, md. repeat split.
  - apply list_lookup_middle. assumption.
  - apply list_lookup_middle. reflexivity.
  - rewrite invokes_snoc, Hnone. reflexivity.
Qed.

Lemma run_thread_length fl env g g' tr :
  run_thread fl env g = Some (g', tr) -> length tr = length env.
Proof.
  revert g g' tr. induction env as [|[b i] env IH]; intros g g' tr; simpl.
  - intros [= <- <-]. reflexivity.
  - destruct (step fl i b g) as [[[b1 g1] e]|]; [|discriminate].
    destruct (run_thread fl env g1) as [[g2 tr2]|] eqn:Hrun; [|discriminate].
    intros [= <- <-]. simpl. f_equal. eapply IH. eassumption.
Qed.

Lemma outcome_step fl env g tr b i b' g' e :
  length tr = length env ->
  outcome_inv fl env g tr ->
  step fl i b g = Some (b', g', e) ->
  outcome_inv fl (env ++ [(b, i)]) g' (tr ++ [Obs b e b']).
Proof.
  intros Hlen Hinv Hstep. destruct g as [p c]. unfold UnaryInterceptorClient in Hstep.
  unfold outcome_inv in *.
  destruct p; simpl in Hstep, Hinv; step_cases Hstep;
    injection Hstep as <- <- <-; simpl.
  all: try (apply replied_snoc; [reflexivity | assumption]).
  all: try (right; apply replied_snoc; [reflexivity | assumption]).
  all: try (rewrite invokes_snoc_other by reflexivity; assumption).
  all: try (match goal with
            | H : reply_err _ = _ |- _ => rewrite <- H
            end; try right; apply replied_now; assumption).
  - (* line 68 *)
    left. split; [rewrite invokes_snoc_other by reflexivity; assumption|].
    match goal with
    | H : _ && negb _ = true |- _ => apply andb_prop in H as [Hflag _]
    end.
    eexists. left. split; [assumption | reflexivity].
  - (* line 87, expired *)
    split; [rewrite invokes_snoc_other by reflexivity; assumption|].
    match goal with
    | H : _ && (_ <? _) = true |- _ => apply andb_prop in H as [Hflag _]
    end.
    assumption.
  - (* line 92 *)
    destruct Hinv as [Hnone Hflag]. left.
    split; [rewrite invokes_snoc_other by reflexivity; assumption|].
    eexists. right. split; [assumption | reflexivity].
Qed.

Lemma outcome_run fl ctx0 env g tr :
  run_thread fl env (start ctx0) = Some (g, tr) -> outcome_inv fl env g tr.
Proof.
  revert g tr. induction env as [|[b i] env IH] using rev_ind; intros g tr Hrun.
  - injection Hrun as <- <-. reflexivity.
  - apply run_thread_snoc in Hrun as (g1 & tr1 & b' & e & Hrun & Hstep & ->).
    eapply outcome_step; [| apply IH |]; try eassumption.
    eapply run_thread_length. eassumption.
Qed.

(** X7: a call that has returned either never called the transport and
    returns one of the interceptor's own two [ResourceExhausted] statuses
    (queue too long, request expired), each only under its switch; or it
    called the transport exactly once and returns exactly the error, or
    the absence of error, that this call of the transport returned. This
    holds whatever the other goroutines do between its steps. *)
Theorem call_returns_transport_result
    (fl : Flags) (ctx0 : outgoing) (env : list (Breakwater * input))
    (g : goroutine) (tr : list obs) (r : option error) :
  run_thread fl env (start ctx0) = Some (g, tr) ->
  at_pc g = Ret r ->
  (dropped_locally fl tr r /\ code <$> r = Some ResourceExhausted) \/
  transport_replied env tr r.
Proof.
  intros Hrun Hpc. pose proof (outcome_run _ _ _ _ _ Hrun) as Hinv.
  unfold outcome_inv in Hinv. rewrite Hpc in Hinv.
  destruct Hinv as [Hlocal|Hreply]; [left | right; assumption].
  split; [assumption|].
  destruct Hlocal as (_ & b & [[_ ->]|[_ ->]]); reflexivity.
Qed.

Lemma call_returns_transport_result_witness :
  (dropped_locally all_on whole_trace None /\
   code <$> (None : option error) = Some ResourceExhausted) \/
  transport_replied whole_env whole_trace None.
Proof.
  apply (call_returns_transport_result all_on [] whole_env
           (Go (Ret None) [("demand", "1"); ("id", "c1")]) whole_trace None).
  - vm_compute. reflexivity.
  - reflexivity.
Defined.

(** ** After the transport call *)

(** X8: a reply without error that carries a [credits] header makes the
    caller take the balance out of [outgoingCredits], whatever it is, and
    put back the first header value parsed as a decimal [int64] but at
    least 1; it then signals the waiters and returns no error. The
    balance written lies between 1 and the largest [int64] even when the
    header is malformed, negative or out of range. *)
Theorem grant_replaces_balance
    (fl : Flags) (c : outgoing) (s : string) (more : list string) (u : Z)
    (b1 b2 b2' b3 b3' b4 : Breakwater) (i1 i2 i3 i4 : input) :
  reply_err i1 = None ->
  header_get (reply_header i1) "credits" = s :: more ->
  recv_credits b2 = Some (u, b2') ->
  send_credits b3 (Z.max (Strconv.ParseInt s) 1) = Some b3' ->
  run_thread fl [(b1, i1); (b2, i2); (b3, i3); (b4, i4)] (Go L134 c) =
    Some (Go (Ret None) c,
          [Obs b1 (EvInvoke c) b1;
           Obs b2 (EvRecvCredits u) b2';
           Obs b3 (EvSendCredits (Z.max (Strconv.ParseInt s) 1)) b3';
           Obs b4 EvUnblock (unblockNoCreditBlock b4)]) /\
  1 <= Z.max (Strconv.ParseInt s) 1 <= Int64.max_int.
Proof.
  intros Herr Hheader Hrecv Hsend. split.
  - unfold run_thread, UnaryInterceptorClient. simpl.
    rewrite Herr, Hheader. simpl. rewrite Hrecv. simpl. rewrite Hsend. reflexivity.
  - pose proof (ParseInt_in_range s) as Hr.
    unfold Int64.in_range, Int64.max_int, Int64.min_int in *. lia.
Qed.

Lemma grant_replaces_balance_witness :
  let b := instance 50 7 1000 "c1" in
  let taken := with_outgoingCredits b (Chan [] 1) in
  run_thread all_on
    [(b, granted "-3"); (b, silent 0); (taken, silent 0); (b, silent 0)] (Go L134 []) =
    Some (Go (Ret None) [],
          [Obs b (EvInvoke []) b;
           Obs b (EvRecvCredits 7) taken;
           Obs taken (EvSendCredits (Z.max (Strconv.ParseInt "-3") 1))
             (with_outgoingCredits b (Chan [1] 1));
           Obs b EvUnblock (unblockNoCreditBlock b)]) /\
  1 <= Z.max (Strconv.ParseInt "-3") 1 <= Int64.max_int.
Proof.
  intros b taken.
  apply (grant_replaces_balance all_on [] "-3" [] 7 b b taken taken
           (with_outgoingCredits b (Chan [1] 1)) b
           (granted "-3") (silent 0) (silent 0) (silent 0)).
  - reflexivity.
  - vm_compute. reflexivity.
  - reflexivity.
  - vm_compute. reflexivity.
Defined.

(** X9: a reply without error and without a [credits] header makes the
    caller put back the balance it finds, raised to 1 if it is lower: a
    balance of at least 1 is kept as it is, a balance of 0 or less becomes
    1. It then signals the waiters and returns no error. *)
Theorem reply_without_grant_floors_balance
    (fl : Flags) (c : outgoing) (u : Z)
    (b1 b2 b2' b3 b3' b4 : Breakwater) (i1 i2 i3 i4 : input) :
  reply_err i1 = None ->
  header_get (reply_header i1) "credits" = [] ->
  recv_credits b2 = Some (u, b2') ->
  send_credits b3 (Z.max u 1) = Some b3' ->
  run_thread fl [(b1, i1); (b2, i2); (b3, i3); (b4, i4)] (Go L134 c) =
    Some (Go (Ret None) c,
          [Obs b1 (EvInvoke c) b1;
           Obs b2 (EvRecvCredits u) b2';
           Obs b3 (EvSendCredits (Z.max u 1)) b3';
           Obs b4 EvUnblock (unblockNoCreditBlock b4)]) /\
  (1 <= u -> Z.max u 1 = u) /\
  (u <= 0 -> Z.max u 1 = 1).
Proof.
  intros Herr Hheader Hrecv Hsend. split; [|lia].
  unfold run_thread, UnaryInterceptorClient. simpl.
  rewrite Herr, Hheader. simpl. rewrite Hrecv. simpl. rewrite Hsend. reflexivity.
Qed.

Lemma reply_without_grant_floors_balance_witness :
  let b := instance 50 0 1000 "c1" in
  let taken := with_outgoingCredits b (Chan [] 1) in
  run_thread all_on
    [(b, silent 0); (b, silent 0); (taken, silent 0); (b, silent 0)] (Go L134 []) =
    Some (Go (Ret None) [],
          [Obs b (EvInvoke []) b;
           Obs b (EvRecvCredits 0) taken;
           Obs taken (EvSendCredits (Z.max 0 1)) (with_outgoingCredits b (Chan [1] 1));
           Obs b EvUnblock (unblockNoCreditBlock b)]) /\
  (1 <= 0 -> Z.max 0 1 = 0) /\
  (0 <= 0 -> Z.max 0 1 = 1).
Proof.
  intros b taken.
  apply (reply_without_grant_floors_balance all_on [] 0 b b taken taken
           (with_outgoingCredits b (Chan [1] 1)) b
           (silent 0) (silent 0) (silent 0) (silent 0)).
  - reflexivity.
  - vm_compute. reflexivity.
  - reflexivity.
  - reflexivity.
Defined.

(** X10: with [creditsOnFail] on, a call whose transport fails and that
    finds a balance [v] below the largest [int64] in [outgoingCredits]
    puts back [v + 1], signals the waiters and returns the transport's
    error. *)
Theorem failed_call_refunds_credit
    (fl : Flags) (c : outgoing) (err : error) (v : Z)
    (b1 b2 b2' b3 b3' b4 : Breakwater) (i1 i2 i3 i4 : input) :
  creditsOnFail fl = true ->
  reply_err i1 = Some err ->
  recv_credits b2 = Some (v, b2') ->
  Int64.in_range v -> v < Int64.max_int ->
  send_credits b3 (v + 1) = Some b3' ->
  run_thread fl [(b1, i1); (b2, i2); (b3, i3); (b4, i4)] (Go L134 c) =
    Some (Go (Ret (Some err)) c,
          [Obs b1 (EvInvoke c) b1;
           Obs b2 (EvRecvCredits v) b2';
           Obs b3 (EvSendCredits (v + 1)) b3';
           Obs b4 EvUnblock (unblockNoCreditBlock b4)]).
Proof.
  intros Hflag Herr Hrecv Hrange Hlt Hsend.
  unfold run_thread, UnaryInterceptorClient. simpl.
  rewrite Herr, Hflag. simpl. rewrite Hrecv. simpl.
  rewrite (int64_add_one_small v Hrange Hlt), Hsend. reflexivity.
Qed.

Lemma failed_call_refunds_credit_witness :
  let b := instance 50 2 1000 "c1" in
  let taken := with_outgoingCredits b (Chan [] 1) in
  let err := Errorf Unavailable "transport is closing" in
  run_thread all_on
    [(b, failed Unavailable "transport is closing"); (b, silent 0);
     (taken, silent 0); (b, silent 0)] (Go L134 []) =
    Some (Go (Ret (Some err)) [],
          [Obs b (EvInvoke []) b;
           Obs b (EvRecvCredits 2) taken;
           Obs taken (EvSendCredits (2 + 1)) (with_outgoingCredits b (Chan [3] 1));
           Obs b EvUnblock (unblockNoCreditBlock b)]).
Proof.
  intros b taken err.
  apply (failed_call_refunds_credit all_on [] err 2 b b taken taken
           (with_outgoingCredits b (Chan [3] 1)) b
           (failed Unavailable "transport is closing") (silent 0) (silent 0) (silent 0)).
  - reflexivity.
  - reflexivity.
  - reflexivity.
  - vm_compute. split; discriminate.
  - vm_compute. reflexivity.
  - reflexivity.
Defined.

(** X11: with [creditsOnFail] on, a call whose transport fails while
    [outgoingCredits] is empty, because another goroutine holds the
    balance, does not wait for it: it adds no credit back, does not touch
    the channel, signals the waiters and returns the transport's error.
    The credit the call took at admission is then lost. *)
Theorem refund_skipped_when_balance_held
    (fl : Flags) (c : outgoing) (err : error)
    (b1 b2 b3 : Breakwater) (i1 i2 i3 : input) :
  creditsOnFail fl = true ->
  reply_err i1 = Some err ->
  buf (outgoingCredits b2) = [] ->
  run_thread fl [(b1, i1); (b2, i2); (b3, i3)] (Go L134 c) =
    Some (Go (Ret (Some err)) c,
          [Obs b1 (EvInvoke c) b1;
           Obs b2 EvNoCredits b2;
           Obs b3 EvUnblock (unblockNoCreditBlock b3)]) /\
  outgoingCredits (unblockNoCreditBlock b3) = outgoingCredits b3.
Proof.
  intros Hflag Herr Hempty. split; [|apply unblock_credits].
  unfold run_thread, UnaryInterceptorClient. simpl.
  rewrite Herr, Hflag. simpl.
  unfold recv_credits, Channel.recv. rewrite Hempty. reflexivity.
Qed.

Lemma refund_skipped_when_balance_held_witness :
  let b := with_outgoingCredits (instance 50 2 1000 "c1") (Chan [] 1) in
  let err := Errorf Unavailable "transport is closing" in
  run_thread all_on
    [(b, failed Unavailable "transport is closing"); (b, silent 0); (b, silent 0)]
    (Go L134 []) =
    Some (Go (Ret (Some err)) [],
          [Obs b (EvInvoke []) b;
           Obs b EvNoCredits b;
           Obs b EvUnblock (unblockNoCreditBlock b)]) /\
  outgoingCredits (unblockNoCreditBlock b) = outgoingCredits b.
Proof.
  intros b err.
  apply (refund_skipped_when_balance_held all_on [] err b b b
           (failed Unavailable "transport is closing") (silent 0) (silent 0));
    reflexivity.
Defined.

(** ** The helpers *)

Lemma ones_rotate (l : list Z) : Forall (eq 1) l -> l ++ [1] = 1 :: l.
Proof.
  induction 1 as [|x l Hx Hl IH]; [reflexivity|].
  subst x. simpl. rewrite IH. reflexivity.
Qed.

(** X14: on a queue with room whose entries are the 1s the interceptor
    puts there, [queueRequest] succeeds and a [dequeueRequest] right after
    it succeeds too and gives back the instance exactly as it was. *)
Theorem queue_then_dequeue_restores (b : Breakwater) :
  Forall (eq 1) (buf (pendingOutgoing b)) ->
  ~ Channel.full (pendingOutgoing b) ->
  (queueRequest b).2 = true /\
  dequeueRequest (queueRequest b).1 = (b, true).
Proof.
  intros Hones Hroom. unfold Channel.full in Hroom.
  unfold queueRequest, Channel.send.
  destruct (Nat.ltb_spec (length (buf (pendingOutgoing b))) (cap (pendingOutgoing b)));
    [|lia].
  simpl. split; [reflexivity|].
  unfold dequeueRequest, Channel.recv. simpl.
  rewrite (ones_rotate _ Hones). destruct b as [[qb qc] sg cr ex nm]. reflexivity.
Qed.

Lemma queue_then_dequeue_restores_witness :
  let b := mkBreakwater (Chan [1; 1] 50) (Chan [1] 1) (Chan [3] 1) 1000 "c1" in
  (queueRequest b).2 = true /\
  dequeueRequest (queueRequest b).1 = (b, true).
Proof.
  intros b. apply (queue_then_dequeue_restores b).
  - repeat constructor.
  - unfold Channel.full. simpl. lia.
Defined.

(** X15: a waiting goroutine that receives a wake-up goes on to read the
    balance when the expiration switch is off, or when the time elapsed is
    below [clientExpiration + 1] microseconds: the elapsed nanoseconds
    are truncated to whole microseconds and the test is strict, so a wait
    of [clientExpiration] microseconds and 999 nanoseconds is in time. *)
Theorem wait_within_expiration_proceeds
    (fl : Flags) (b : Breakwater) (i : input) (c : outgoing) :
  buf (noCreditBlocker b) <> [] ->
  useClientTimeExpiration fl = false \/
    0 <= elapsed i < (clientExpiration b + 1) * 1000 ->
  exists b', wake b = Some b' /\
    step fl i b (Go L80 c) = Some (b', Go L99 c, EvWake).
Proof.
  intros Hsignal Htime.
  destruct (wake b) as [b'|] eqn:Hwake.
  2: { exfalso. unfold wake, Channel.recv in Hwake.
       destruct (buf (noCreditBlocker b)); [congruence | discriminate]. }
  exists b'. split; [reflexivity|].
  pose proof (wake_Some _ _ Hwake) as (_ & _ & Hexp).
  unfold UnaryInterceptorClient. simpl. rewrite Hwake, Hexp.
  destruct Htime as [->|[Hlo Hhi]]; [reflexivity|].
  assert (Microseconds (elapsed i) <= clientExpiration b) as Hin.
  { unfold Microseconds. rewrite Z.quot_div_nonneg by lia.
    assert (elapsed i / 1000 < clientExpiration b + 1); [|lia].
    apply Z.div_lt_upper_bound; lia. }
  destruct (Z.ltb_spec (clientExpiration b) (Microseconds (elapsed i))); [lia|].
  rewrite andb_false_r. reflexivity.
Qed.

Lemma wait_within_expiration_proceeds_witness :
  let b := instance 50 3 1000 "c1" in
  let i := mkInput 1000999 None ∅ in
  exists b', wake b = Some b' /\
    step all_on i b (Go L80 []) = Some (b', Go L99 [], EvWake).
Proof.
  intros b i. apply (wait_within_expiration_proceeds all_on b i []).
  - discriminate.
  - right. simpl. lia.
Defined.

(** ** The queue and the callers *)

Lemma threads_length_kept fl sched s :
  length (threads (sys_run fl sched s)) = length (threads s).
Proof.
  apply (sys_run_inv (fun s' => length (threads s') = length (threads s)));
    [|reflexivity].
  intros s' [t i] Hs'. unfold sys_step.
  destruct (threads s' !! t) as [g|]; [|assumption].
  destruct (step fl i (shared s') g) as [[[b' g'] e]|]; [|assumption].
  simpl. rewrite length_insert. assumption.
Qed.

Lemma count_queued_below ts t g :
  ts !! t = Some g -> queued g = false -> (count_queued ts < length ts)%nat.
Proof.
  unfold count_queued. revert t. induction ts as [|x ts IH]; intros t Hlook Hq.
  - discriminate.
  - pose proof (List.filter_length_le queued ts) as Hle.
    destruct t as [|t]; simpl in *.
    + injection Hlook as ->. rewrite Hq. lia.
    + specialize (IH t Hlook Hq). destruct (queued x); simpl; lia.
Qed.

(** X16: with the queue-length switch on, for callers that enter on an
    empty queue, under every schedule the length of [pendingOutgoing] is
    the number of callers between their [queueRequest] and their
    [dequeueRequest], and so never more than the number of callers. *)
Theorem queue_counts_callers
    (fl : Flags) (sched : list (nat * input)) (s0 : system) :
  queue_limited fl ->
  initial s0 ->
  length (buf (pendingOutgoing (shared (sys_run fl sched s0))))
    = count_queued (threads (sys_run fl sched s0)) /\
  (length (buf (pendingOutgoing (shared (sys_run fl sched s0))))
     <= length (threads s0))%nat.
Proof.
  intros Hflag Hinit.
  pose proof (queue_accounted_run fl sched s0 Hflag (initial_accounted _ Hinit)) as Hacc.
  unfold queue_accounted in Hacc. split; [assumption|].
  rewrite Hacc, <- (threads_length_kept fl sched s0).
  unfold count_queued. apply List.filter_length_le.
Qed.

Lemma queue_counts_callers_witness :
  let s := sys_run all_on refund_schedule two_callers in
  length (buf (pendingOutgoing (shared s))) = count_queued (threads s) /\
  (length (buf (pendingOutgoing (shared s))) <= length (threads two_callers))%nat.
Proof.
  apply (queue_counts_callers all_on refund_schedule two_callers).
  - reflexivity.
  - exact initial_two_callers.
Defined.

Lemma step_log_enqueue fl s t i o :
  In (t, o) (step_log fl s (t, i)) ->
  act o = EvQueue false ->
  exists g, threads s !! t = Some g /\ at_pc g = L66 /\
    Channel.send (pendingOutgoing (shared s)) 1 = None.
Proof.
  unfold step_log. destruct (threads s !! t) as [g|]; [|intros []].
  destruct (step fl i (shared s) g) as [[[b' g'] e]|] eqn:Hstep; [|intros []].
  intros [[= <-]|[]]. simpl. intros ->. exists g. split; [reflexivity|].
  destruct g as [p c]. unfold UnaryInterceptorClient in Hstep.
  destruct p; simpl in Hstep; step_cases Hstep; try discriminate Hstep.
  all: injection Hstep as <- <- Hadded; split; [reflexivity|].
  all: match goal with
       | H : queueRequest _ = (_, ?a) |- _ =>
           unfold queueRequest in H;
           destruct (Channel.send (pendingOutgoing (shared s)) 1);
           [injection H as _ <-; discriminate Hadded | reflexivity]
       end.
Qed.

(** X17: with the queue-length switch on, when the callers that enter on
    an empty queue are no more than the capacity of [pendingOutgoing],
    every [queueRequest] of every schedule succeeds: no call finds the
    queue full, so none is dropped for it. *)
Theorem no_drop_within_capacity
    (fl : Flags) (sched : list (nat * input)) (s0 : system) (t : nat) (o : obs) :
  queue_limited fl ->
  initial s0 ->
  (length (threads s0) <= cap (pendingOutgoing (shared s0)))%nat ->
  In (t, o) (sys_log fl sched s0) ->
  act o <> EvQueue false.
Proof.
  intros Hflag Hinit Hcap. revert t o.
  induction sched as [|[u i] sched IH] using rev_ind; intros t o Hin; [destruct Hin|].
  rewrite sys_log_snoc in Hin. apply in_app_or in Hin as [Hin|Hin]; [eauto|].
  intros Hdrop.
  assert (t = u) as ->.
  { unfold step_log in Hin. destruct (threads _ !! u); [|destruct Hin].
    destruct (step _ _ _ _) as [[[? ?] ?]|]; [|destruct Hin].
    destruct Hin as [[= <- _]|[]]. reflexivity. }
  destruct (step_log_enqueue _ _ _ _ _ Hin Hdrop) as (g & Hg & Hpc & Hfull).
  destruct (queue_counts_callers fl sched s0 Hflag Hinit) as [Hlen _].
  assert (queued g = false) as Hq by (unfold queued; rewrite Hpc; reflexivity).
  pose proof (count_queued_below _ _ _ Hg Hq) as Hbelow.
  rewrite threads_length_kept in Hbelow.
  destruct (instance_config_kept fl sched s0) as (Hsame & _).
  unfold Channel.send in Hfull.
  destruct (Nat.ltb_spec
              (length (buf (pendingOutgoing (shared (sys_run fl sched s0)))))
              (cap (pendingOutgoing (shared (sys_run fl sched s0)))));
    [discriminate | lia].
Qed.

Lemma no_drop_within_capacity_witness :
  act (Obs (instance 50 2 1000 "c1") (EvQueue true)
         (with_pendingOutgoing (instance 50 2 1000 "c1") (Chan [1] 50)))
    <> EvQueue false.
Proof.
  apply (no_drop_within_capacity all_on [(0%nat, silent 5)] two_callers 0%nat).
  - reflexivity.
  - exact initial_two_callers.
  - simpl. lia.
  - vm_compute. left. reflexivity.
Defined.

(** ** Witnesses for the balance lemmas *)

Lemma write_after_read_witness :
  let b := instance 50 3 1000 "c1" in
  let taken := with_outgoingCredits b (Chan [] 1) in
  0 <= 2 \/
  (3 = Int64.max_int /\ 2 = Int64.min_int /\
   exists err, at_pc (Go L99 []) = L139 err).
Proof.
  intros b taken.
  apply (write_after_read all_on (silent 0) b (Go L99 []) taken (Go (L104 2) []) 3
           (silent 0) taken (with_outgoingCredits b (Chan [2] 1)) (Go L108 []) 2).
  - reflexivity.
  - vm_compute. split; discriminate.
  - lia.
  - reflexivity.
Defined.

Lemma credits_nonneg_without_refund_witness :
  nonneg_system (sys_run (mkFlags true true false) refund_schedule two_callers).
Proof.
  apply (credits_nonneg_without_refund (mkFlags true true false) refund_schedule
           two_callers).
  - reflexivity.
  - split.
    + repeat constructor; vm_compute; discriminate.
    + repeat constructor.
Defined.

(** ** A whole call of a lone caller *)

Lemma lone_step fl b g i b' g' e sched :
  step fl i b g = Some (b', g', e) ->
  sys_run fl ((0%nat, i) :: sched) (Sys b [g]) = sys_run fl sched (Sys b' [g']).
Proof.
  intros Hstep. unfold sys_run. cbn [fold_left]. f_equal.
  unfold sys_step. cbn [threads shared lookup list_lookup]. rewrite Hstep. reflexivity.
Qed.

Lemma lone_done fl b r c sched :
  sys_run fl sched (Sys b [Go (Ret r) c]) = Sys b [Go (Ret r) c].
Proof.
  unfold sys_run. induction sched as [|[t i] sched IH]; [reflexivity|].
  cbn [fold_left]. rewrite <- IH at 2. f_equal.
  unfold sys_step. cbn [threads shared]. destruct t as [|t]; reflexivity.
Qed.

(** Computes the step of a goroutine on an instance given by its fields;
    the tests left are rewritten with the equations in the context. *)
Ltac use_tests :=
  repeat match goal with
    | H : _ = true |- _ => rewrite H
    | H : _ = false |- _ => rewrite H
    | H : reply_err _ = _ |- _ => rewrite H
    | H : header_get _ _ = _ |- _ => rewrite H
    end;
  rewrite ?andb_false_r.

Ltac run_step :=
  unfold UnaryInterceptorClient, queueRequest, dequeueRequest, unblockNoCreditBlock,
    wake, recv_credits, send_credits, Channel.send, Channel.recv,
    with_pendingOutgoing, with_noCreditBlocker, with_outgoingCredits,
    AppendToOutgoingContext, getDemand, Channel.len;
  cbn [at_pc ctx pendingOutgoing noCreditBlocker outgoingCredits clientExpiration id
       buf cap length app negb];
  use_tests;
  cbn [at_pc ctx pendingOutgoing noCreditBlocker outgoingCredits clientExpiration id
       buf cap length app negb andb Nat.ltb Nat.leb];
  use_tests;
  cbn [at_pc ctx pendingOutgoing noCreditBlocker outgoingCredits clientExpiration id
       buf cap length app negb andb Nat.ltb Nat.leb];
  try reflexivity.


Lemma lone_admitted fl q qc v ex nm c i sched :
  Forall (eq 1) q ->
  (length q < qc)%nat ->
  0 < v <= Int64.max_int ->
  Microseconds (elapsed i) <= ex ->
  sys_run fl (replicate 7 (0%nat, i) ++ sched) (Sys (found q qc v ex nm) [start c]) =
  sys_run fl
    ((if 0 <? v - 1 then [] else [(0%nat, i)]) ++ sched)
    (Sys (mkBreakwater (Chan q qc) (Chan (if 0 <? v - 1 then [1] else []) 1)
            (Chan [v - 1] 1) ex nm)
       [Go L134 (sent c q nm)]).
Proof.
  intros Hones Hroom Hcredit Hintime.
  assert ((length q <? qc)%nat = true) as Hq by (apply Nat.ltb_lt; assumption).
  assert ((ex <? Microseconds (elapsed i)) = false) as Hexp by (apply Z.ltb_ge; lia).
  assert ((0 <? v) = true) as Hv by (apply Z.ltb_lt; lia).
  assert (Int64.sub v 1 = v - 1) as Hsub.
  { apply int64_sub_one_pos; [|lia].
    unfold Int64.in_range, Int64.min_int, Int64.max_int in *. lia. }
  unfold found, start, sent. cbn [replicate app].
  erewrite lone_step by run_step.
  rewrite (ones_rotate _ Hones).
  erewrite lone_step by run_step.
  erewrite lone_step by run_step.
  rewrite Hsub.
  erewrite lone_step by run_step.
  destruct (0 <? v - 1) eqn:Hmore.
  - erewrite lone_step by run_step.
    erewrite lone_step by run_step.
    erewrite lone_step by run_step.
    reflexivity.
  - erewrite lone_step by run_step.
    erewrite lone_step by run_step.
    reflexivity.
Qed.

(** X18: a lone caller that is admitted with balance [v > 0], whose
    transport call fails, leaves with [creditsOnFail] on the instance
    exactly as it found it: its queue entry is gone, the credit is added
    back and a wake-up is queued again. It returns the transport's error,
    having sent as demand the queue length plus one. *)
Theorem failed_call_with_refund_restores_instance
    (fl : Flags) (q : list Z) (qc : nat) (v ex : Z) (nm : string)
    (c : outgoing) (i : input) (err : error) (sched : list (nat * input)) :
  creditsOnFail fl = true ->
  reply_err i = Some err ->
  Forall (eq 1) q ->
  (length q < qc)%nat ->
  0 < v <= Int64.max_int ->
  Microseconds (elapsed i) <= ex ->
  sys_run fl (replicate 11 (0%nat, i) ++ sched) (Sys (found q qc v ex nm) [start c]) =
  Sys (found q qc v ex nm) [Go (Ret (Some err)) (sent c q nm)].
Proof.
  intros Hflag Herr Hones Hroom Hcredit Hintime.
  change (replicate 11 (0%nat, i) ++ sched)
    with (replicate 7 (0%nat, i) ++ (replicate 4 (0%nat, i) ++ sched)).
  rewrite lone_admitted by assumption.
  assert (Int64.add (v - 1) 1 = v) as Hadd.
  { rewrite int64_add_one_small; [lia | |lia].
    unfold Int64.in_range, Int64.min_int, Int64.max_int in *. lia. }
  unfold found.
  destruct (0 <? v - 1); cbn [replicate app].
  all: erewrite lone_step by run_step.
  all: erewrite lone_step by run_step.
  all: erewrite lone_step by run_step.
  all: rewrite Hadd.
  all: erewrite lone_step by run_step.
  all: apply lone_done.
Qed.

Lemma failed_call_with_refund_restores_instance_witness :
  sys_run all_on (replicate 11 (0%nat, failed Unavailable "transport is closing") ++ [])
    (Sys (found [1] 50 1 1000 "c1") [start []]) =
  Sys (found [1] 50 1 1000 "c1")
    [Go (Ret (Some (Errorf Unavailable "transport is closing"))) (sent [] [1] "c1")].
Proof.
  apply (failed_call_with_refund_restores_instance all_on [1] 50 1 1000 "c1" []
           (failed Unavailable "transport is closing")).
  - reflexivity.
  - reflexivity.
  - repeat constructor.
  - simpl. lia.
  - vm_compute. split; [reflexivity | discriminate].
  - vm_compute. discriminate.
Defined.

(** X19: with [creditsOnFail] off, a lone caller admitted with balance
    [v > 0] whose transport call fails leaves the balance at [v - 1]; when
    it took the last credit it also leaves no wake-up queued, so the
    instance is left with no credit and no signal. It returns the
    transport's error. *)
Theorem failed_call_without_refund_spends_credit
    (fl : Flags) (q : list Z) (qc : nat) (v ex : Z) (nm : string)
    (c : outgoing) (i : input) (err : error) (sched : list (nat * input)) :
  creditsOnFail fl = false ->
  reply_err i = Some err ->
  Forall (eq 1) q ->
  (length q < qc)%nat ->
  0 < v <= Int64.max_int ->
  Microseconds (elapsed i) <= ex ->
  sys_run fl (replicate 8 (0%nat, i) ++ sched) (Sys (found q qc v ex nm) [start c]) =
  Sys (mkBreakwater (Chan q qc) (Chan (if 0 <? v - 1 then [1] else []) 1)
         (Chan [v - 1] 1) ex nm)
    [Go (Ret (Some err)) (sent c q nm)].
Proof.
  intros Hflag Herr Hones Hroom Hcredit Hintime.
  change (replicate 8 (0%nat, i) ++ sched)
    with (replicate 7 (0%nat, i) ++ ([(0%nat, i)] ++ sched)).
  rewrite lone_admitted by assumption.
  destruct (0 <? v - 1); cbn [replicate app].
  all: erewrite lone_step by run_step.
  all: apply lone_done.
Qed.

Lemma failed_call_without_refund_spends_credit_witness :
  sys_run (mkFlags true true false)
    (replicate 8 (0%nat, failed Unavailable "transport is closing") ++ [])
    (Sys (found [] 50 1 1000 "c1") [start []]) =
  Sys (mkBreakwater (Chan [] 50) (Chan (if 0 <? 1 - 1 then [1] else []) 1)
         (Chan [1 - 1] 1) 1000 "c1")
    [Go (Ret (Some (Errorf Unavailable "transport is closing"))) (sent [] [] "c1")].
Proof.
  apply (failed_call_without_refund_spends_credit (mkFlags true true false) [] 50 1 1000
           "c1" [] (failed Unavailable "transport is closing")).
  - reflexivity.
  - reflexivity.
  - constructor.
  - simpl. lia.
  - vm_compute. split; [reflexivity | discriminate].
  - vm_compute. discriminate.
Defined.

(** X20: a lone caller admitted with balance [v > 0] whose reply carries a
    [credits] header leaves the instance as it found it except for the
    balance, which is the header's first value parsed as a decimal
    [int64], but at least 1, whatever [v] was; it returns no error. *)
Theorem granted_call_sets_balance
    (fl : Flags) (q : list Z) (qc : nat) (v ex : Z) (nm : string)
    (c : outgoing) (i : input) (s : string) (more : list string)
    (sched : list (nat * input)) :
  reply_err i = None ->
  header_get (reply_header i) "credits" = s :: more ->
  Forall (eq 1) q ->
  (length q < qc)%nat ->
  0 < v <= Int64.max_int ->
  Microseconds (elapsed i) <= ex ->
  sys_run fl (replicate 11 (0%nat, i) ++ sched) (Sys (found q qc v ex nm) [start c]) =
  Sys (found q qc (Z.max (Strconv.ParseInt s) 1) ex nm) [Go (Ret None) (sent c q nm)].
Proof.
  intros Herr Hheader Hones Hroom Hcredit Hintime.
  change (replicate 11 (0%nat, i) ++ sched)
    with (replicate 7 (0%nat, i) ++ (replicate 4 (0%nat, i) ++ sched)).
  rewrite lone_admitted by assumption.
  unfold found.
  destruct (0 <? v - 1); cbn [replicate app].
  all: erewrite lone_step by run_step.
  all: erewrite lone_step by run_step.
  all: erewrite lone_step by run_step.
  all: erewrite lone_step by run_step.
  all: apply lone_done.
Qed.

Lemma granted_call_sets_balance_witness :
  sys_run all_on (replicate 11 (0%nat, granted "40") ++ [])
    (Sys (found [] 50 3 1000 "c1") [start []]) =
  Sys (found [] 50 (Z.max (Strconv.ParseInt "40") 1) 1000 "c1")
    [Go (Ret None) (sent [] [] "c1")].
Proof.
  apply (granted_call_sets_balance all_on [] 50 3 1000 "c1" [] (granted "40") "40" []).
  - reflexivity.
  - vm_compute. reflexivity.
  - constructor.
  - simpl. lia.
  - vm_compute. split; [reflexivity | discriminate].
  - vm_compute. discriminate.
Defined.

(** X21: a lone caller admitted with balance [v > 0] whose reply carries
    no [credits] header leaves the instance as it found it except for the
    balance, which is [v - 1] but at least 1: a server that never grants
    leaves a lone caller with one credit for ever. *)
Theorem silent_call_keeps_one_credit
    (fl : Flags) (q : list Z) (qc : nat) (v ex : Z) (nm : string)
    (c : outgoing) (i : input) (sched : list (nat * input)) :
  reply_err i = None ->
  header_get (reply_header i) "credits" = [] ->
  Forall (eq 1) q ->
  (length q < qc)%nat ->
  0 < v <= Int64.max_int ->
  Microseconds (elapsed i) <= ex ->
  sys_run fl (replicate 11 (0%nat, i) ++ sched) (Sys (found q qc v ex nm) [start c]) =
  Sys (found q qc (Z.max (v - 1) 1) ex nm) [Go (Ret None) (sent c q nm)].
Proof.
  intros Herr Hheader Hones Hroom Hcredit Hintime.
  change (replicate 11 (0%nat, i) ++ sched)
    with (replicate 7 (0%nat, i) ++ (replicate 4 (0%nat, i) ++ sched)).
  rewrite lone_admitted by assumption.
  unfold found.
  destruct (0 <? v - 1); cbn [replicate app].
  all: erewrite lone_step by run_step.
  all: erewrite lone_step by run_step.
  all: erewrite lone_step by run_step.
  all: erewrite lone_step by run_step.
  all: apply lone_done.
Qed.

Lemma silent_call_keeps_one_credit_witness :
  sys_run all_on (replicate 11 (0%nat, silent 0) ++ [])
    (Sys (found [] 50 1 1000 "c1") [start []]) =
  Sys (found [] 50 (Z.max (1 - 1) 1) 1000 "c1") [Go (Ret None) (sent [] [] "c1")].
Proof.
  apply (silent_call_keeps_one_credit all_on [] 50 1 1000 "c1" [] (silent 0)).
  - reflexivity.
  - vm_compute. reflexivity.
  - constructor.
  - simpl. lia.
  - vm_compute. split; [reflexivity | discriminate].
  - vm_compute. discriminate.
Defined.
